(** * employee-matcher: the matching engine and the assignment ledger

  A shallow embedding of [matching_engine.py] and of the transactional
  functions of [database.py], followed by the properties the specification
  states about them.

  Modelling conventions.
  - A pandas DataFrame of processes is a [list] of rows in index order.
  - The SQLite table [processes] is a [list] of rows in rowid order: its
    column [process_name] carries no UNIQUE constraint, so rows may share a
    name, [UPDATE ... WHERE process_name = ?] touches every such row and
    [fetchone()] yields the first one.
  - The SQLite table [employees] is a finite map from the INTEGER PRIMARY
    KEY [id] to the remaining columns.
  - A number stored in an INTEGER column is recorded by its value in [Z].
    SQLite keeps an INTEGER in 64 signed bits; [update_process_vacancy],
    the one function that adds a caller's number to a column, is modelled
    with SQLite's overflow into binary64 and with the [OverflowError] of
    binding a number that has no 64-bit form.  The [+ 1] and [- 1] of the
    employee functions are written as exact arithmetic, which they are on
    every INTEGER; the conservation theorem, the one that follows a vacancy
    through several of them, assumes the room that keeps it an INTEGER.
    The timestamp columns [created_at] and [assigned_at] play no role and
    are left out.
  - [ORDER BY] and [DataFrame.sort_values] are two sorts, each fixed only up
    to the order of rows with equal keys: they are separate parameters.
  - Text is [string] over 8-bit characters; case mapping and whitespace are
    those of the ASCII range. *)

From stdpp Require Import gmap strings list fin_maps sorting.
From Stdlib Require Import ZArith Lia Ascii.
From Stdlib Require String.

Local Open Scope string_scope.
Local Open Scope Z_scope.

(** ** Python and SQL text primitives *)

Module Text.

(** [str.isspace] on one character of the ASCII range: TAB, LF, VT, FF, CR,
    the four separators FS, GS, RS, US, and SPACE. *)
Definition is_space (c : ascii) : bool :=
  let n := N_of_ascii c in
  ((9 <=? n) && (n <=? 13) || (28 <=? n) && (n <=? 32))%N.

Definition is_upper (c : ascii) : bool :=
  let n := N_of_ascii c in ((65 <=? n) && (n <=? 90))%N.

Definition lower_char (c : ascii) : ascii :=
  if is_upper c then ascii_of_N (N_of_ascii c + 32) else c.

(** [str.lower()] *)
Fixpoint py_lower (s : string) : string :=
  match s with
  | EmptyString => EmptyString
  | String c s' => String (lower_char c) (py_lower s')
  end.

(** SQLite's built-in [LOWER()]: folds the 26 ASCII letters only. *)
Fixpoint sql_lower (s : string) : string :=
  match s with
  | EmptyString => EmptyString
  | String c s' => String (lower_char c) (sql_lower s')
  end.

(** [str.lstrip()] *)
Fixpoint lstrip (s : string) : string :=
  match s with
  | EmptyString => EmptyString
  | String c s' => if is_space c then lstrip s' else s
  end.

(** [str.rstrip()] *)
Fixpoint rstrip (s : string) : string :=
  match s with
  | EmptyString => EmptyString
  | String c s' =>
      match rstrip s' with
      | EmptyString => if is_space c then EmptyString else String c EmptyString
      | r => String c r
      end
  end.

(** [str.strip()] *)
Definition strip (s : string) : string := rstrip (lstrip s).

(** [email.strip().lower()], the normalisation both [add_employee] and
    [update_employee] apply to their [email] argument. *)
Definition normalize (email : string) : string := py_lower (strip email).

(** Python truthiness of an optional string: [None] and [''] are falsy. *)
Definition truthy (o : option string) : bool :=
  match o with
  | Some (String _ _) => true
  | _ => false
  end.

End Text.

(** ** matching_engine.py *)

Module MatchingEngine.

(** One row of the [process_data] DataFrame. *)
Record Process := mkProcess {
  Process_Name : string;
  Potential : string;
  Communication : string;
  Vacancy : Z
}.

#[global] Instance Process_eq_dec : EqDecision Process.
Proof. solve_decision. Defined.

(** A row of the frame [get_process_suggestions] returns: the process
    columns plus the added [relevance] column. *)
Record Suggestion := mkSuggestion {
  row : Process;
  relevance : Z
}.

(** [DataFrame.sort_values]: pandas promises a reordering of the rows that
    is sorted by the key; which of several rows with equal keys comes first
    depends on the sorting kind (the single-column default, quicksort, is
    not stable).  The interface fixes only what every kind guarantees. *)
Class SortValues := {
  sort_values : ∀ {A : Type}, (A → A → bool) → list A → list A;
  sort_values_perm : ∀ A (before : A → A → bool) (l : list A),
    sort_values before l ≡ₚ l;
  sort_values_sorted : ∀ A (before : A → A → bool) (l : list A),
    (∀ x y, before x y = true ∨ before y x = true) →
    (∀ x y z, before x y = true → before y z = true → before x z = true) →
    StronglySorted (λ x y, before x y = true) (sort_values before l)
}.

(** [ascending=False] on column [Vacancy]. *)
Definition by_vacancy_desc (a b : Process) : bool := Vacancy b <=? Vacancy a.

(** [ascending=[False, False]] on columns [relevance], [Vacancy]. *)
Definition by_relevance_vacancy_desc (a b : Suggestion) : bool :=
  (relevance b <? relevance a)
  || ((relevance a =? relevance b) && (Vacancy (row b) <=? Vacancy (row a))).

Section Engine.
Context `{SortValues}.

Definition find_matching_process
    (process_data : list Process) (potential communication : string)
    : option Process :=
  let matching_processes :=
    filter (λ p, Potential p = potential ∧ Communication p = communication
                 ∧ 0 < Vacancy p) process_data in
  let matching_processes :=
    match matching_processes with
    | [] => filter (λ p, Potential p = potential ∧ 0 < Vacancy p) process_data
    | _ => matching_processes
    end in
  let matching_processes := sort_values by_vacancy_desc matching_processes in
  match matching_processes with
  | [] => None
  | best :: _ => Some best
  end.

Definition get_process_suggestions
    (process_data : list Process) (potential communication : string)
    : list Suggestion :=
  let suggested_processes :=
    filter (λ p, (Potential p = potential ∨ Communication p = communication)
                 ∧ 0 < Vacancy p) process_data in
  let suggested_processes :=
    (λ p, mkSuggestion p 0) <$> suggested_processes in
  let suggested_processes :=
    (λ s, if bool_decide (Potential (row s) = potential)
          then mkSuggestion (row s) (relevance s + 2) else s)
      <$> suggested_processes in
  let suggested_processes :=
    (λ s, if bool_decide (Communication (row s) = communication)
          then mkSuggestion (row s) (relevance s + 1) else s)
      <$> suggested_processes in
  sort_values by_relevance_vacancy_desc suggested_processes.

End Engine.

End MatchingEngine.

(** ** database.py *)

Module Database.
Import Text.

(** A row of table [processes]. *)
Record ProcessRow := mkProcessRow {
  p_id : Z;
  p_process_name : string;
  p_potential : string;
  p_communication : string;
  p_vacancy : Z
}.

(** The columns of table [employees] besides the primary key [id]. *)
Record EmployeeRow := mkEmployeeRow {
  e_name : string;
  e_email : string;
  e_potential : string;
  e_communication : string;
  e_process_id : option Z;
  e_process_name : option string
}.

#[global] Instance ProcessRow_eq_dec : EqDecision ProcessRow.
Proof. solve_decision. Defined.

#[global] Instance EmployeeRow_eq_dec : EqDecision EmployeeRow.
Proof. solve_decision. Defined.

(** The database file: both tables and their AUTOINCREMENT counters (the
    [sqlite_sequence] entries). *)
Record DB := mkDB {
  processes : list ProcessRow;
  processes_seq : Z;
  employees : gmap Z EmployeeRow;
  employees_seq : Z
}.

(** [init_db()]: the file is removed and both tables are created empty. *)
Definition init_db : DB :=
  {| processes := []; processes_seq := 0; employees := ∅; employees_seq := 0 |}.

(** What sqlite3 can raise inside the modelled statements. *)
Inductive SqlException :=
| UniqueEmail.   (* IntegrityError: UNIQUE constraint failed: employees.email *)

(** The reasons for which a ledger function returns [False]. *)
Inductive Error :=
| EmailExists
| EmailExistsOther
| ProcessNotFound (process_name : option string)
| NoVacancy (process_name : option string)
| VacancyUpdateFailed (process_name : option string)
| EmployeeNotFound
| EmployeeNotUpdated
| EmployeeNotDeleted
| DatabaseError (e : SqlException).

(** The pair [(bool, str)] a ledger function returns. *)
Inductive Outcome :=
| Done (message : string)
| Failed (e : Error).

Definition text_of (o : option string) : string := default "None" o.

Definition error_message (e : Error) : string :=
  match e with
  | EmailExists => "Email already exists in the database"
  | EmailExistsOther => "Email already exists for another employee"
  | ProcessNotFound n => "Process " +:+ text_of n +:+ " not found"
  | NoVacancy n => "No vacancy available in " +:+ text_of n
  | VacancyUpdateFailed n => "Failed to update vacancy for " +:+ text_of n
  | EmployeeNotFound => "Employee not found"
  | EmployeeNotUpdated => "Employee not found or no changes made"
  | EmployeeNotDeleted => "Employee could not be deleted"
  | DatabaseError UniqueEmail =>
      "Database error: UNIQUE constraint failed: employees.email"
  end.

Definition to_python (o : Outcome) : bool * string :=
  match o with
  | Done m => (true, m)
  | Failed e => (false, error_message e)
  end.

Definition succeeded (o : Outcome) : bool :=
  match o with Done _ => true | Failed _ => false end.

(** *** Statements inside a transaction

    Between [BEGIN TRANSACTION] and [COMMIT] the statements of a ledger
    function act on the connection's view of the database.  Every
    [return False, ...] of the source is preceded by [ROLLBACK], and so is
    the [except] handler: an aborted body leaves no view behind. *)
Definition Tx (A : Type) : Type := DB → Error + A * DB.

#[global] Instance Tx_ret : MRet Tx := λ A a db, inr (a, db).

#[global] Instance Tx_bind : MBind Tx := λ A B f m db,
  match m db with
  | inl e => inl e
  | inr (a, db') => f a db'
  end.

(** [cursor.execute("ROLLBACK"); conn.close(); return False, msg] *)
Definition rollback {A : Type} (e : Error) : Tx A := λ _, inl e.

(** A [SELECT]: reads the view and leaves it alone. *)
Definition query {A : Type} (read : DB → A) : Tx A := λ db, inr (read db, db).

(** An exception escaping a statement: the handler rolls back. *)
Definition raise {A : Type} (e : SqlException) : Tx A := rollback (DatabaseError e).

(** [BEGIN TRANSACTION] ... [COMMIT], or [ROLLBACK] to the state at [BEGIN]. *)
Definition transaction (body : Tx string) (db : DB) : DB * Outcome :=
  match body db with
  | inl e => (db, Failed e)
  | inr (message, db') => (db', Done message)
  end.

(** [SELECT COUNT( * ) FROM employees WHERE LOWER(email) = LOWER(?)] *)
Definition count_email (email : string) (db : DB) : nat :=
  size (filter (λ kv, sql_lower (e_email kv.2) = sql_lower email) (employees db)).

(** [SELECT id FROM employees WHERE LOWER(email) = LOWER(?) AND id != ?] *)
Definition select_other_email (email : string) (employee_id : Z) (db : DB)
    : gmap Z EmployeeRow :=
  filter (λ kv, sql_lower (e_email kv.2) = sql_lower email ∧ kv.1 ≠ employee_id)
         (employees db).

(** [SELECT ... FROM employees WHERE id = ?] followed by [fetchone()] *)
Definition select_employee (employee_id : Z) (db : DB) : option EmployeeRow :=
  employees db !! employee_id.

(** [WHERE process_name = ?] with the Python value bound to the parameter:
    [None] is bound as NULL, which equals nothing. *)
Definition named (process_name : option string) (p : ProcessRow) : Prop :=
  Some (p_process_name p) = process_name.

#[global] Instance named_dec n p : Decision (named n p).
Proof. unfold named. apply _. Defined.

(** [SELECT ... FROM processes WHERE process_name = ?] followed by
    [fetchone()]. *)
Definition select_process (process_name : option string) (db : DB)
    : option ProcessRow :=
  head (filter (named process_name) (processes db)).

Definition set_vacancy (v : Z) (p : ProcessRow) : ProcessRow :=
  {| p_id := p_id p; p_process_name := p_process_name p;
     p_potential := p_potential p; p_communication := p_communication p;
     p_vacancy := v |}.

(** The rows of [processes] after
    [UPDATE processes SET vacancy = <expr> WHERE process_name = ?]. *)
Definition update_rows (expr : Z → Z) (process_name : option string)
    (rows : list ProcessRow) : list ProcessRow :=
  (λ p, if decide (named process_name p)
        then set_vacancy (expr (p_vacancy p)) p else p) <$> rows.

(** The statement itself; its value is [cursor.rowcount]. *)
Definition update_vacancy (expr : Z → Z) (process_name : option string) : Tx nat :=
  λ db,
    inr (length (filter (named process_name) (processes db)),
         {| processes := update_rows expr process_name (processes db);
            processes_seq := processes_seq db;
            employees := employees db;
            employees_seq := employees_seq db |}).

(** [SET vacancy = vacancy + 1] *)
Definition plus_one (vacancy : Z) : Z := vacancy + 1.

(** [SET vacancy = CASE WHEN vacancy > 0 THEN vacancy - 1 ELSE 0 END] *)
Definition minus_one_floor (vacancy : Z) : Z :=
  if 0 <? vacancy then vacancy - 1 else 0.

(** The largest [id] stored in [employees] (0 when the table is empty). *)
Definition max_id (m : gmap Z EmployeeRow) : Z :=
  foldr Z.max 0 (map_to_list m).*1.

(** The rows other than [employee_id] whose [email] is exactly [email]: the
    rows an insert or update of that value would clash with under the
    column's UNIQUE constraint. *)
Definition email_clash (email : string) (employee_id : option Z) (db : DB)
    : gmap Z EmployeeRow :=
  filter (λ kv, e_email kv.2 = email ∧ Some kv.1 ≠ employee_id) (employees db).

(** [INSERT INTO employees (...) VALUES (...)]: AUTOINCREMENT picks an id
    above every id the table has ever held. *)
Definition insert_employee (r : EmployeeRow) : Tx unit :=
  λ db,
    if decide (email_clash (e_email r) None db = ∅) then
      let new_id := Z.max (employees_seq db) (max_id (employees db)) + 1 in
      inr (tt, {| processes := processes db;
                  processes_seq := processes_seq db;
                  employees := <[new_id := r]> (employees db);
                  employees_seq := new_id |})
    else raise UniqueEmail db.

(** [UPDATE employees SET ... WHERE id = ?]; the result is
    [cursor.rowcount]. *)
Definition update_employee_row (employee_id : Z) (r : EmployeeRow) : Tx nat :=
  λ db,
    match employees db !! employee_id with
    | None => inr (0%nat, db)
    | Some _ =>
        if decide (email_clash (e_email r) (Some employee_id) db = ∅) then
          inr (1%nat, {| processes := processes db;
                         processes_seq := processes_seq db;
                         employees := <[employee_id := r]> (employees db);
                         employees_seq := employees_seq db |})
        else raise UniqueEmail db
    end.

(** [DELETE FROM employees WHERE id = ?]; the result is [cursor.rowcount]. *)
Definition delete_employee_row (employee_id : Z) : Tx nat :=
  λ db,
    inr (match employees db !! employee_id with Some _ => 1%nat | None => 0%nat end,
         {| processes := processes db;
            processes_seq := processes_seq db;
            employees := delete employee_id (employees db);
            employees_seq := employees_seq db |}).

(** [purge_deleted_emails()]: [VACUUM] rebuilds the file and changes no row. *)
Definition purge_deleted_emails (db : DB) : DB := db.

(** *** The ledger *)

(** The check-and-decrement block shared by [add_employee] and the changed
    branch of [update_employee]; its value is [process_id]. *)
Definition acquire (process_name : option string) : Tx (option Z) :=
  if truthy process_name then
    result ← query (select_process process_name);
    match result with
    | None => rollback (ProcessNotFound process_name)
    | Some found =>
        let process_id := p_id found in
        let current_vacancy := p_vacancy found in
        if current_vacancy <=? 0 then rollback (NoVacancy process_name)
        else
          rowcount ← update_vacancy minus_one_floor process_name;
          if (rowcount =? 0)%nat then rollback (VacancyUpdateFailed process_name)
          else mret (Some process_id)
    end
  else mret None.

(** The [vacancy + 1] statement guarded by the truthiness of the name; the
    row count is not looked at. *)
Definition release (process_name : option string) : Tx unit :=
  if truthy process_name then
    _ ← update_vacancy plus_one process_name; mret tt
  else mret tt.

Definition add_employee (name email potential communication : string)
    (process_name : option string) (db : DB) : DB * Outcome :=
  let db := purge_deleted_emails db in
  let '(db, outcome) :=
    transaction
      (let email := normalize email in
       count ← query (count_email email);
       if (0 <? count)%nat then rollback EmailExists
       else
         process_id ← acquire process_name;
         _ ← insert_employee
               (mkEmployeeRow name email potential communication
                              process_id process_name);
         mret "Employee added successfully") db in
  match outcome with
  | Done _ => (purge_deleted_emails db, outcome)
  | Failed _ => (db, outcome)
  end.

Definition update_employee (employee_id : Z)
    (name email potential communication : string)
    (process_name : option string) (db : DB) : DB * Outcome :=
  let db := purge_deleted_emails db in
  let '(db, outcome) :=
    transaction
      (let email := normalize email in
       other ← query (select_other_email email employee_id);
       if decide (other ≠ ∅) then rollback EmailExistsOther
       else
         result ← query (select_employee employee_id);
         match result with
         | None => rollback EmployeeNotFound
         | Some current =>
             let old_process := e_process_name current in
             process_id ←
               (if decide (old_process ≠ process_name) then
                  _ ← release old_process;
                  acquire process_name
                else if truthy process_name then
                  result ← query (select_process process_name);
                  mret (p_id <$> result)
                else mret None);
             rowcount ← update_employee_row employee_id
                          (mkEmployeeRow name email potential communication
                                         process_id process_name);
             if (rowcount =? 0)%nat then rollback EmployeeNotUpdated
             else mret "Employee updated successfully"
         end) db in
  match outcome with
  | Done _ => (purge_deleted_emails db, outcome)
  | Failed _ => (db, outcome)
  end.

Definition delete_employee (employee_id : Z) (db : DB) : DB * Outcome :=
  let '(db, outcome) :=
    transaction
      (result ← query (select_employee employee_id);
       match result with
       | None => rollback EmployeeNotFound
       | Some current =>
           let process_name := e_process_name current in
           rowcount ← delete_employee_row employee_id;
           if (rowcount =? 0)%nat then rollback EmployeeNotDeleted
           else
             _ ← release process_name;
             mret ("Employee deleted and process '"
                   +:+ (if truthy process_name then text_of process_name
                        else "None")
                   +:+ "' vacancy updated")
       end) db in
  match outcome with
  | Done _ => (purge_deleted_emails db, outcome)
  | Failed _ => (db, outcome)
  end.

(** *** SQLite's 64-bit addition

    An INTEGER lies between [min_int64] and [max_int64].  When the sum of
    two INTEGERs leaves that range SQLite adds the operands as binary64
    numbers and keeps the result as a REAL; every such REAL is a whole
    number, recorded here by its value, and a value outside the 64-bit
    range is always a REAL. *)
Definition min_int64 : Z := - 2 ^ 63.
Definition max_int64 : Z := 2 ^ 63 - 1.

Definition is_int64 (z : Z) : bool := (min_int64 <=? z) && (z <=? max_int64).

(** The binary64 number nearest to a non-negative whole number: 53
    significant bits, ties to the even significand.  (The largest finite
    binary64 number, near [2^1024], is far beyond any sum of 64-bit
    operands.) *)
Definition nearest_double (m : Z) : Z :=
  if m <? 2 ^ 53 then m
  else
    let ulp := 2 ^ (Z.log2 m - 52) in
    let q := m / ulp in
    let r := m mod ulp in
    let q' := if 2 * r <? ulp then q
              else if ulp <? 2 * r then q + 1
              else if Z.even q then q else q + 1 in
    q' * ulp.

Definition to_double (z : Z) : Z := Z.sgn z * nearest_double (Z.abs z).

(** SQL [a + b]: the exact sum of two INTEGERs when it is one, else the
    binary64 sum of the operands converted to binary64. *)
Definition sql_add (a b : Z) : Z :=
  if is_int64 a && is_int64 b && is_int64 (a + b) then a + b
  else to_double (to_double a + to_double b).

(** [SET vacancy = CASE WHEN vacancy + ? < 0 THEN 0 ELSE vacancy + ? END] *)
Definition add_floor (change vacancy : Z) : Z :=
  if sql_add vacancy change <? 0 then 0 else sql_add vacancy change.

(** [SET vacancy = vacancy + ?] *)
Definition add_plain (change vacancy : Z) : Z := sql_add vacancy change.

(** What a call of [update_process_vacancy] yields: the flag it returns, or
    the exception that leaves it. *)
Inductive PyException := OverflowError.

Inductive Adjustment :=
| Returns (ok : bool)
| Raises (e : PyException).

(** [update_process_vacancy]: one statement in sqlite3's implicit
    transaction; without a matching row the connection is closed before any
    commit, otherwise the update is committed and the row is read back.
    [cursor.execute] binds [change] as a 64-bit INTEGER and raises
    [OverflowError] for any other Python int; nothing catches it and
    nothing has been written. *)
Definition update_process_vacancy (process_name : string) (change : Z) (db : DB)
    : DB * Adjustment :=
  let statement :=
    if change <? 0 then update_vacancy (add_floor change) (Some process_name)
    else update_vacancy (add_plain change) (Some process_name) in
  if is_int64 change then
    match statement db with
    | inl _ => (db, Returns false)
    | inr (rowcount, db') =>
        if (rowcount =? 0)%nat then (db, Returns false)
        else
          let result := select_process (Some process_name) db' in
          (db', Returns (bool_decide (result ≠ None)))
    end
  else (db, Raises OverflowError).

(** [save_processes_to_db]: the table is emptied and one row is inserted per
    row of the frame, with fresh AUTOINCREMENT ids. *)
Fixpoint insert_processes (process_data : list MatchingEngine.Process)
    (rows : list ProcessRow) (seq : Z) : list ProcessRow * Z :=
  match process_data with
  | [] => (rows, seq)
  | r :: rest =>
      insert_processes rest
        (rows ++ [ mkProcessRow (seq + 1)
                     (MatchingEngine.Process_Name r) (MatchingEngine.Potential r)
                     (MatchingEngine.Communication r) (MatchingEngine.Vacancy r) ])
        (seq + 1)
  end.

Definition save_processes_to_db (process_data : list MatchingEngine.Process)
    (db : DB) : DB :=
  let '(rows, seq) := insert_processes process_data [] (processes_seq db) in
  {| processes := rows; processes_seq := seq;
     employees := employees db; employees_seq := employees_seq db |}.

(** [load_processes_from_db]: [None] for an empty table, else the frame. *)
Definition load_processes_from_db (db : DB) : option (list MatchingEngine.Process) :=
  match processes db with
  | [] => None
  | rows =>
      Some ((λ p, MatchingEngine.mkProcess (p_process_name p) (p_potential p)
                    (p_communication p) (p_vacancy p)) <$> rows)
  end.

(** *** Sequences of calls *)

Inductive Call :=
| AdjustVacancy (process_name : string) (change : Z)
| AddEmployee (name email potential communication : string)
              (process_name : option string)
| UpdateEmployee (employee_id : Z) (name email potential communication : string)
                 (process_name : option string)
| DeleteEmployee (employee_id : Z)
| SaveProcesses (process_data : list MatchingEngine.Process).

Definition call (c : Call) (db : DB) : DB :=
  match c with
  | AdjustVacancy n change => (update_process_vacancy n change db).1
  | AddEmployee n e p c pn => (add_employee n e p c pn db).1
  | UpdateEmployee i n e p c pn => (update_employee i n e p c pn db).1
  | DeleteEmployee i => (delete_employee i db).1
  | SaveProcesses d => save_processes_to_db d db
  end.

(** The database after the calls of [cs], in order. *)
Definition run (cs : list Call) (db : DB) : DB := foldl (λ d c, call c d) db cs.

(** Calls that assign, reassign or remove employees. *)
Definition ledger_call (c : Call) : bool :=
  match c with
  | AddEmployee _ _ _ _ _ | UpdateEmployee _ _ _ _ _ _ | DeleteEmployee _ => true
  | _ => false
  end.

(** Calls other than catalogue replacement. *)
Definition keeps_catalog (c : Call) : bool :=
  match c with SaveProcesses _ => false | _ => true end.

(** *** Read-only queries *)

Definition to_frame_row (p : ProcessRow) : MatchingEngine.Process :=
  MatchingEngine.mkProcess (p_process_name p) (p_potential p)
                           (p_communication p) (p_vacancy p).

(** [ORDER BY]: SQLite returns the selected rows sorted by the key; which of
    several rows with equal keys comes first is left to the query plan.  The
    interface fixes only what every plan guarantees.  It is SQLite's sort,
    not pandas': nothing ties it to [MatchingEngine.sort_values]. *)
Class OrderBy := {
  order_by : ∀ {A : Type}, (A → A → bool) → list A → list A;
  order_by_perm : ∀ A (before : A → A → bool) (l : list A),
    order_by before l ≡ₚ l;
  order_by_sorted : ∀ A (before : A → A → bool) (l : list A),
    (∀ x y, before x y = true ∨ before y x = true) →
    (∀ x y z, before x y = true → before y z = true → before x z = true) →
    StronglySorted (λ x y, before x y = true) (order_by before l)
}.

Section Queries.
Context `{OrderBy}.

(** [database.get_process_suggestions]:
    [SELECT ... FROM processes WHERE potential = ? AND communication = ?
     AND vacancy > 0 ORDER BY vacancy DESC], read into a frame. *)
Definition get_process_suggestions (potential communication : string) (db : DB)
    : list MatchingEngine.Process :=
  order_by MatchingEngine.by_vacancy_desc
    (to_frame_row
       <$> filter (λ p, p_potential p = potential
                        ∧ p_communication p = communication
                        ∧ 0 < p_vacancy p) (processes db)).

End Queries.

(** [fetchone()] on a scan of [employees]: the row of the smallest [id]. *)
Definition first_row (rows : gmap Z EmployeeRow) : option (Z * EmployeeRow) :=
  foldr (λ kv found,
           match found with
           | Some kv' => if kv.1 <? kv'.1 then Some kv else found
           | None => Some kv
           end) None (map_to_list rows).

(** [find_employee_by_email]: the dictionary of the matching row, or [None]. *)
Definition find_employee_by_email (email : string) (db : DB)
    : option (Z * EmployeeRow) :=
  let email := normalize email in
  first_row (filter (λ kv, sql_lower (e_email kv.2) = sql_lower email)
                    (employees db)).

(** [reset_database()]: the file is removed and [init_db()] runs again. *)
Definition reset_database (db : DB) : DB := init_db.

End Database.

(** ** data_handler.py *)

Module DataHandler.
Import Text MatchingEngine.

Definition valid_potentials : list string :=
  ["Sales"; "Consultation"; "Service"; "Support"].

Definition valid_communications : list string :=
  ["Excellent"; "Very Good"; "Good"].

(** [Series.unique()]: the distinct values in order of first appearance. *)
Definition unique (values : list string) : list string :=
  foldl (λ (seen : list string) v,
           if decide (v ∈ seen) then seen else (seen ++ [v])%list) [] values.

(** The [ValueError]s raised once the file has been read. *)
Inductive LoadError :=
| InvalidPotentials (values : list string)
| InvalidCommunications (values : list string).

(** [data['Potential'] = data['Potential'].astype(str).str.strip()] *)
Definition strip_potential (p : Process) : Process :=
  mkProcess (Process_Name p) (strip (Potential p)) (Communication p) (Vacancy p).

(** [data['Communication'] = data['Communication'].astype(str).str.strip()] *)
Definition strip_communication (p : Process) : Process :=
  mkProcess (Process_Name p) (Potential p) (strip (Communication p)) (Vacancy p).

(** [load_data] from the validation of the values on: [data] is the frame
    [read_excel] or [read_csv] returned, taken to hold the four required
    columns, text in [Process_Name], [Potential] and [Communication] and
    integers in [Vacancy] (so that neither the missing-column nor the
    numeric check raises). *)
Definition load_data (data : list Process) : LoadError + list Process :=
  let data := strip_potential <$> data in
  let invalid_potentials :=
    unique (Potential <$> filter (λ p, Potential p ∉ valid_potentials) data) in
  if decide (0 < length invalid_potentials)%nat
  then inl (InvalidPotentials invalid_potentials)
  else
    let data := strip_communication <$> data in
    let invalid_communications :=
      unique (Communication
                <$> filter (λ p, Communication p ∉ valid_communications) data) in
    if decide (0 < length invalid_communications)%nat
    then inl (InvalidCommunications invalid_communications)
    else inr data.

End DataHandler.

(** * Properties *)

(** ** The matching engine *)

Module EngineFacts.
Import MatchingEngine.

(** The relevance the specification assigns to a process: 2 for a matching
    potential plus 1 for a matching communication level. *)
Definition score (potential communication : string) (p : Process) : Z :=
  (if bool_decide (Potential p = potential) then 2 else 0)
  + (if bool_decide (Communication p = communication) then 1 else 0).

(** The filters named by the specification. *)
Definition exact_match (potential communication : string) (p : Process) : Prop :=
  Potential p = potential ∧ Communication p = communication ∧ 0 < Vacancy p.

Definition potential_match (potential : string) (p : Process) : Prop :=
  Potential p = potential ∧ 0 < Vacancy p.

Definition partial_match (potential communication : string) (p : Process) : Prop :=
  (Potential p = potential ∨ Communication p = communication) ∧ 0 < Vacancy p.

#[global] Instance exact_match_dec potential communication p :
  Decision (exact_match potential communication p).
Proof. unfold exact_match. apply _. Defined.

#[global] Instance potential_match_dec potential p :
  Decision (potential_match potential p).
Proof. unfold potential_match. apply _. Defined.

#[global] Instance partial_match_dec potential communication p :
  Decision (partial_match potential communication p).
Proof. unfold partial_match. apply _. Defined.

(** [best] is a row of [data] that satisfies [P] and has the largest vacancy
    of all such rows. *)
Definition best_among (P : Process → Prop) (data : list Process) (best : Process)
    : Prop :=
  best ∈ data ∧ P best ∧ ∀ q, q ∈ data → P q → Vacancy q ≤ Vacancy best.

(** Rows ordered by relevance, highest first, and by vacancy, highest first,
    among rows of equal relevance. *)
Definition ranked_before (a b : Suggestion) : Prop :=
  relevance b < relevance a
  ∨ (relevance a = relevance b ∧ Vacancy (row b) ≤ Vacancy (row a)).

(** Merge sort, a stable sorting kind, used to run the engine. *)
Definition stable_sort {A : Type} (before : A → A → bool) (l : list A) : list A :=
  @merge_sort A (λ x y, before x y = true) (λ x y, decide (before x y = true)) l.

Lemma stable_sort_perm A (before : A → A → bool) (l : list A) :
  stable_sort before l ≡ₚ l.
Proof. apply merge_sort_Permutation. Qed.

Lemma stable_sort_sorted A (before : A → A → bool) (l : list A) :
  (∀ x y, before x y = true ∨ before y x = true) →
  (∀ x y z, before x y = true → before y z = true → before x z = true) →
  StronglySorted (λ x y, before x y = true) (stable_sort before l).
Proof.
  intros Htot Htrans. apply StronglySorted_merge_sort.
  - intros x y z. apply Htrans.
  - intros x y. apply Htot.
Qed.

Definition pandas_stable : SortValues :=
  {| sort_values := @stable_sort;
     sort_values_perm := stable_sort_perm;
     sort_values_sorted := stable_sort_sorted |}.

Lemma by_vacancy_desc_total a b :
  by_vacancy_desc a b = true ∨ by_vacancy_desc b a = true.
Proof. unfold by_vacancy_desc. rewrite !Z.leb_le. lia. Qed.

Lemma by_vacancy_desc_trans a b c :
  by_vacancy_desc a b = true → by_vacancy_desc b c = true →
  by_vacancy_desc a c = true.
Proof. unfold by_vacancy_desc. rewrite !Z.leb_le. lia. Qed.

Lemma by_relevance_vacancy_desc_iff a b :
  by_relevance_vacancy_desc a b = true ↔ ranked_before a b.
Proof.
  unfold by_relevance_vacancy_desc, ranked_before.
  rewrite orb_true_iff, andb_true_iff, Z.ltb_lt, Z.eqb_eq, Z.leb_le. tauto.
Qed.

Lemma by_relevance_vacancy_desc_total a b :
  by_relevance_vacancy_desc a b = true ∨ by_relevance_vacancy_desc b a = true.
Proof. rewrite !by_relevance_vacancy_desc_iff. unfold ranked_before. lia. Qed.

Lemma by_relevance_vacancy_desc_trans a b c :
  by_relevance_vacancy_desc a b = true → by_relevance_vacancy_desc b c = true →
  by_relevance_vacancy_desc a c = true.
Proof. rewrite !by_relevance_vacancy_desc_iff. unfold ranked_before. lia. Qed.

Lemma StronglySorted_weaken {A} (R S : A → A → Prop) (l : list A) :
  (∀ a b, R a b → S a b) → StronglySorted R l → StronglySorted S l.
Proof.
  intros HRS. induction 1 as [|a l Hl IH Hall]; constructor; [done|].
  eapply Forall_impl; [exact Hall|]. intros b. apply HRS.
Qed.

Section Sorted.
Context `{SortValues}.

(** The first row of a frame sorted by descending vacancy is a row of the
    frame and no row has a larger vacancy. *)
Lemma sorted_head_max (l : list Process) :
  match sort_values by_vacancy_desc l with
  | [] => l = []
  | best :: _ => best ∈ l ∧ ∀ q, q ∈ l → Vacancy q ≤ Vacancy best
  end.
Proof.
  pose proof (sort_values_perm _ by_vacancy_desc l) as Hperm.
  pose proof (sort_values_sorted _ by_vacancy_desc l
                by_vacancy_desc_total by_vacancy_desc_trans) as Hsorted.
  destruct (sort_values by_vacancy_desc l) as [|best rest].
  - symmetry in Hperm. by apply Permutation_nil_r in Hperm.
  - split.
    + rewrite <- Hperm. apply list_elem_of_here.
    + intros q Hq. rewrite <- Hperm in Hq.
      apply StronglySorted_inv in Hsorted as [_ Hall].
      apply elem_of_cons in Hq as [->|Hq]; [lia|].
      rewrite Forall_forall in Hall. apply Hall in Hq.
      unfold by_vacancy_desc in Hq. by apply Z.leb_le in Hq.
Qed.

Lemma best_among_filter (P : Process → Prop) `{∀ p, Decision (P p)}
    (data : list Process) (best : Process) :
  best ∈ filter P data →
  (∀ q, q ∈ filter P data → Vacancy q ≤ Vacancy best) →
  best_among P data best.
Proof.
  intros Hin Hmax. apply list_elem_of_filter in Hin as [HP Hin].
  repeat split; [done..|].
  intros q Hq HPq. apply Hmax. by apply list_elem_of_filter.
Qed.

Lemma filter_nil_none (P : Process → Prop) `{∀ p, Decision (P p)}
    (data : list Process) :
  filter P data = [] → ∀ p, p ∈ data → ¬ P p.
Proof.
  intros Hnil p Hin HP.
  assert (p ∈ filter P data) as Hp by (by apply list_elem_of_filter).
  rewrite Hnil in Hp. by apply not_elem_of_nil in Hp.
Qed.

(** C3: [find_matching_process] returns a row of maximal vacancy among the
    rows matching potential and communication with a positive vacancy; when
    there is no such row, a row of maximal vacancy among the rows matching
    the potential alone with a positive vacancy; and nothing exactly when
    both sets are empty.  An exact match therefore wins over any
    potential-only match, whatever the vacancy of the latter. *)
Theorem find_matching_process_relaxation
    (data : list Process) (potential communication : string) :
  match find_matching_process data potential communication with
  | Some best =>
      ((∃ p, p ∈ data ∧ exact_match potential communication p) →
       best_among (exact_match potential communication) data best)
      ∧ (¬ (∃ p, p ∈ data ∧ exact_match potential communication p) →
         best_among (potential_match potential) data best)
  | None =>
      (∀ p, p ∈ data → ¬ exact_match potential communication p)
      ∧ (∀ p, p ∈ data → ¬ potential_match potential p)
  end.
Proof.
  unfold find_matching_process.
  change (λ p, Potential p = potential ∧ Communication p = communication
               ∧ 0 < Vacancy p) with (exact_match potential communication).
  change (λ p, Potential p = potential ∧ 0 < Vacancy p)
    with (potential_match potential).
  destruct (filter (exact_match potential communication) data)
    as [|x exact] eqn:Hexact.
  - pose proof (@filter_nil_none _ _ _ Hexact) as Hnone.
    pose proof (sorted_head_max (filter (potential_match potential) data)) as Hhead.
    destruct (sort_values by_vacancy_desc
                (filter (potential_match potential) data)) as [|best rest].
    + split; [done|]. exact (@filter_nil_none _ _ _ Hhead).
    + destruct Hhead as [Hin Hmax]. split.
      * intros (p & Hp & HP). by destruct (Hnone p Hp).
      * intros _. exact (@best_among_filter _ _ _ _ Hin Hmax).
  - pose proof (sorted_head_max (x :: exact)) as Hhead.
    destruct (sort_values by_vacancy_desc (x :: exact)) as [|best rest]; [done|].
    destruct Hhead as [Hin Hmax]. rewrite <- Hexact in Hin, Hmax. split.
    + intros _. exact (@best_among_filter _ _ _ _ Hin Hmax).
    + intros Hno. destruct Hno. exists x.
      assert (x ∈ x :: exact) as Hx by apply list_elem_of_here.
      rewrite <- Hexact in Hx.
      apply list_elem_of_filter in Hx as [HP Hx]. done.
Qed.

(** The three passes over the [relevance] column leave the score of the
    specification in it. *)
Lemma relevance_passes (potential communication : string) (l : list Process) :
  (λ s, if bool_decide (Communication (row s) = communication)
        then mkSuggestion (row s) (relevance s + 1) else s)
    <$> ((λ s, if bool_decide (Potential (row s) = potential)
               then mkSuggestion (row s) (relevance s + 2) else s)
           <$> ((λ p, mkSuggestion p 0) <$> l))
  = (λ p, mkSuggestion p (score potential communication p)) <$> l.
Proof.
  rewrite <- !list_fmap_compose. apply list_fmap_ext. intros _ p _.
  unfold score; simpl.
  destruct (bool_decide (Potential p = potential)); simpl;
    destruct (bool_decide (Communication p = communication)); reflexivity.
Qed.

(** C9: [get_process_suggestions] returns exactly the rows with a positive
    vacancy whose potential or communication matches, each with relevance 2
    for a matching potential plus 1 for a matching communication, ordered by
    relevance descending and then by vacancy descending. *)
Theorem get_process_suggestions_ranked
    (data : list Process) (potential communication : string) :
  let result := get_process_suggestions data potential communication in
  row <$> result ≡ₚ filter (partial_match potential communication) data
  ∧ (∀ s, s ∈ result → relevance s = score potential communication (row s))
  ∧ StronglySorted ranked_before result.
Proof.
  unfold get_process_suggestions.
  change (λ p, (Potential p = potential ∨ Communication p = communication)
               ∧ 0 < Vacancy p) with (partial_match potential communication).
  rewrite relevance_passes.
  set (scored := (λ p, mkSuggestion p (score potential communication p))
                   <$> filter (partial_match potential communication) data).
  pose proof (sort_values_perm _ by_relevance_vacancy_desc scored) as Hperm.
  simpl. split; [|split].
  - rewrite Hperm. unfold scored. rewrite <- list_fmap_compose.
    simpl. by rewrite list_fmap_id.
  - intros s Hs. rewrite Hperm in Hs. unfold scored in Hs.
    apply list_elem_of_fmap in Hs as (p & -> & _). reflexivity.
  - eapply StronglySorted_weaken;
      [|apply sort_values_sorted;
        [apply by_relevance_vacancy_desc_total
        |apply by_relevance_vacancy_desc_trans]].
    intros a b. apply by_relevance_vacancy_desc_iff.
Qed.

End Sorted.

(** The catalogue of property P5 of the specification. *)
Definition catalog_P5 : list Process :=
  [ mkProcess "A" "Sales" "Excellent" 3; mkProcess "B" "Sales" "Good" 1 ].

Example find_matching_process_P5_exact :
  find_matching_process (H := pandas_stable) catalog_P5 "Sales" "Good"
  = Some (mkProcess "B" "Sales" "Good" 1).
Proof. vm_compute. reflexivity. Qed.

Example find_matching_process_P5_fallback :
  find_matching_process (H := pandas_stable)
    [ mkProcess "A" "Sales" "Excellent" 3 ] "Sales" "Good"
  = Some (mkProcess "A" "Sales" "Excellent" 3).
Proof. vm_compute. reflexivity. Qed.

Lemma find_matching_process_relaxation_witness :
  match find_matching_process (H := pandas_stable) catalog_P5 "Sales" "Good" with
  | Some best =>
      ((∃ p, p ∈ catalog_P5 ∧ exact_match "Sales" "Good" p) →
       best_among (exact_match "Sales" "Good") catalog_P5 best)
      ∧ (¬ (∃ p, p ∈ catalog_P5 ∧ exact_match "Sales" "Good" p) →
         best_among (potential_match "Sales") catalog_P5 best)
  | None =>
      (∀ p, p ∈ catalog_P5 → ¬ exact_match "Sales" "Good" p)
      ∧ (∀ p, p ∈ catalog_P5 → ¬ potential_match "Sales" p)
  end.
Proof.
  exact (find_matching_process_relaxation (H := pandas_stable)
           catalog_P5 "Sales" "Good").
Defined.

Lemma get_process_suggestions_ranked_witness :
  StronglySorted ranked_before
    (get_process_suggestions (H := pandas_stable) catalog_P5 "Sales" "Good").
Proof.
  exact (proj2 (proj2 (get_process_suggestions_ranked (H := pandas_stable)
                         catalog_P5 "Sales" "Good"))).
Defined.

Example get_process_suggestions_example :
  get_process_suggestions (H := pandas_stable)
    [ mkProcess "A" "Sales" "Excellent" 3; mkProcess "B" "Sales" "Good" 1;
      mkProcess "C" "Support" "Good" 7; mkProcess "D" "Support" "Excellent" 9;
      mkProcess "E" "Sales" "Good" 0; mkProcess "F" "Sales" "Very Good" 5 ]
    "Sales" "Good"
  = [ mkSuggestion (mkProcess "B" "Sales" "Good" 1) 3;
      mkSuggestion (mkProcess "F" "Sales" "Very Good" 5) 2;
      mkSuggestion (mkProcess "A" "Sales" "Excellent" 3) 2;
      mkSuggestion (mkProcess "C" "Support" "Good" 7) 1 ].
Proof. vm_compute. reflexivity. Qed.

End EngineFacts.

(** ** Text normalisation *)

Module TextFacts.
Import Text.

Lemma is_space_lower_char c : is_space (lower_char c) = is_space c.
Proof. destruct c as [[] [] [] [] [] [] [] []]; reflexivity. Qed.

Lemma lower_char_idem c : lower_char (lower_char c) = lower_char c.
Proof. destruct c as [[] [] [] [] [] [] [] []]; reflexivity. Qed.

Lemma py_lower_idem s : py_lower (py_lower s) = py_lower s.
Proof. induction s as [|c s IH]; simpl; [done|]. by rewrite lower_char_idem, IH. Qed.

Lemma sql_lower_py_lower s : sql_lower (py_lower s) = py_lower s.
Proof. induction s as [|c s IH]; simpl; [done|]. by rewrite lower_char_idem, IH. Qed.

Lemma lstrip_py_lower s : lstrip (py_lower s) = py_lower (lstrip s).
Proof.
  induction s as [|c s IH]; simpl; [done|].
  rewrite is_space_lower_char. by destruct (is_space c).
Qed.

Lemma rstrip_py_lower s : rstrip (py_lower s) = py_lower (rstrip s).
Proof.
  induction s as [|c s IH]; simpl; [done|].
  rewrite IH, is_space_lower_char.
  destruct (rstrip s); simpl; [by destruct (is_space c)|done].
Qed.

Lemma strip_py_lower s : strip (py_lower s) = py_lower (strip s).
Proof. unfold strip. by rewrite lstrip_py_lower, rstrip_py_lower. Qed.

(** A string is free of leading whitespace. *)
Definition lead_ok (s : string) : Prop :=
  match s with
  | EmptyString => True
  | String c _ => is_space c = false
  end.

Lemma lstrip_lead_ok s : lead_ok (lstrip s).
Proof.
  induction s as [|c s IH]; simpl; [done|].
  destruct (is_space c) eqn:Hc; [done|]. simpl. exact Hc.
Qed.

Lemma lstrip_fixed s : lead_ok s → lstrip s = s.
Proof. destruct s as [|c s]; simpl; [done|]. by intros ->. Qed.

Lemma rstrip_lead_ok s : lead_ok s → lead_ok (rstrip s).
Proof.
  destruct s as [|c s]; simpl; [done|]. intros Hc.
  destruct (rstrip s); [by rewrite Hc|done].
Qed.

Lemma rstrip_idem s : rstrip (rstrip s) = rstrip s.
Proof.
  induction s as [|c s IH]; simpl; [done|].
  destruct (rstrip s) as [|a r] eqn:Hr.
  - destruct (is_space c) eqn:Hc; simpl; [done|]. by rewrite Hc.
  - change (rstrip (String c (String a r))) with
      (match rstrip (String a r) with
       | EmptyString => if is_space c then EmptyString else String c EmptyString
       | r' => String c r'
       end).
    by rewrite IH.
Qed.

Lemma strip_idem s : strip (strip s) = strip s.
Proof.
  unfold strip.
  rewrite (lstrip_fixed (rstrip (lstrip s)))
    by apply rstrip_lead_ok, lstrip_lead_ok.
  apply rstrip_idem.
Qed.

(** Normalising twice is normalising once. *)
Lemma normalize_idem s : normalize (normalize s) = normalize s.
Proof. unfold normalize. by rewrite strip_py_lower, strip_idem, py_lower_idem. Qed.

(** SQLite's [LOWER] leaves a normalised address alone. *)
Lemma sql_lower_normalize s : sql_lower (normalize s) = normalize s.
Proof. apply sql_lower_py_lower. Qed.

Example normalize_example : normalize "  Foo@X.com " = "foo@x.com".
Proof. reflexivity. Qed.

End TextFacts.

(** ** The assignment ledger *)

Module LedgerFacts.
Import Text TextFacts Database.

(** *** The statements *)

Lemma count_email_zero email db :
  count_email email db = 0%nat →
  ∀ i e, employees db !! i = Some e → sql_lower (e_email e) ≠ sql_lower email.
Proof.
  unfold count_email. intros Hsize i e Hi Heq.
  apply map_size_empty_iff in Hsize.
  by eapply (map_filter_empty_not_lookup _ _ i e) in Hsize.
Qed.

Lemma count_email_pos email db :
  (0 < count_email email db)%nat ↔
  ∃ i e, employees db !! i = Some e ∧ sql_lower (e_email e) = sql_lower email.
Proof.
  unfold count_email. split.
  - intros Hpos.
    destruct (map_size_ne_0_lookup_1
                (filter (λ kv, sql_lower (e_email kv.2) = sql_lower email)
                        (employees db))) as (i & e & Hi); [lia|].
    apply map_lookup_filter_Some in Hi as [Hi Heq]. by exists i, e.
  - intros (i & e & Hi & Heq).
    enough (size (filter (λ kv, sql_lower (e_email kv.2) = sql_lower email)
                         (employees db)) ≠ 0%nat) by lia.
    apply (map_size_ne_0_lookup_2 _ i). exists e.
    by apply map_lookup_filter_Some.
Qed.

Lemma select_other_email_empty email employee_id db :
  select_other_email email employee_id db = ∅ ↔
  ∀ i e, employees db !! i = Some e → i ≠ employee_id →
         sql_lower (e_email e) ≠ sql_lower email.
Proof.
  unfold select_other_email. split.
  - intros Hempty i e Hi Hne Heq.
    by eapply (map_filter_empty_not_lookup _ _ i e) in Hempty.
  - intros Hnone. apply map_empty. intros i.
    apply map_lookup_filter_None. destruct (employees db !! i) as [e|] eqn:Hi;
      [right|by left].
    intros x [= <-] [Heq Hne]. by eapply Hnone.
Qed.

(** The UNIQUE constraint cannot fire once the case-insensitive check of
    [add_employee] has passed. *)
Lemma email_clash_insert_empty email db :
  count_email email db = 0%nat → email_clash email None db = ∅.
Proof.
  intros Hcount. unfold email_clash. apply map_empty. intros i.
  apply map_lookup_filter_None. destruct (employees db !! i) as [e|] eqn:Hi;
    [right|by left].
  intros x [= <-] [Heq _]. simpl in Heq.
  eapply count_email_zero; [done..|]. by rewrite Heq.
Qed.

(** Nor once the check of [update_employee] has passed. *)
Lemma email_clash_update_empty email employee_id db :
  select_other_email email employee_id db = ∅ →
  email_clash email (Some employee_id) db = ∅.
Proof.
  intros Hother. unfold email_clash. apply map_empty. intros i.
  apply map_lookup_filter_None. destruct (employees db !! i) as [e|] eqn:Hi;
    [right|by left].
  intros x [= <-] [Heq Hne]. simpl in Heq, Hne.
  eapply select_other_email_empty; [done..| |by rewrite Heq]. congruence.
Qed.

Lemma select_process_rowcount process_name rows found :
  head (filter (named process_name) rows) = Some found →
  length (filter (named process_name) rows) ≠ 0%nat.
Proof. by destruct (filter (named process_name) rows). Qed.


Lemma update_rows_lookup expr process_name rows k :
  update_rows expr process_name rows !! k
  = (λ p, if decide (named process_name p)
          then set_vacancy (expr (p_vacancy p)) p else p) <$> rows !! k.
Proof. unfold update_rows. apply list_lookup_fmap. Qed.

(** An [UPDATE] of the vacancy column changes no name. *)
Lemma update_rows_names expr process_name rows :
  p_process_name <$> update_rows expr process_name rows = p_process_name <$> rows.
Proof.
  unfold update_rows. rewrite <- list_fmap_compose. apply list_fmap_ext.
  intros _ p _. simpl. by destruct (decide (named process_name p)).
Qed.

(** Rows of another name are out of the statement's reach. *)
Lemma filter_named_update_rows expr touched process_name rows :
  touched ≠ process_name →
  filter (named process_name) (update_rows expr touched rows)
  = filter (named process_name) rows.
Proof.
  intros Hne. unfold update_rows.
  induction rows as [|p rows IH]; [done|].
  rewrite fmap_cons, !filter_cons, IH.
  destruct (decide (named touched p)) as [Ht|Ht].
  - assert (¬ named process_name p) as Hn
      by (unfold named in *; congruence).
    rewrite !decide_False; [done|done|].
    unfold named in *. simpl. done.
  - done.
Qed.

(** *** The ledger functions, statement by statement *)

(** The database after a committed insert of [r] over the rows [rows]. *)
Definition added (r : EmployeeRow) (rows : list ProcessRow) (db : DB) : DB :=
  let new_id := Z.max (employees_seq db) (max_id (employees db)) + 1 in
  {| processes := rows; processes_seq := processes_seq db;
     employees := <[new_id := r]> (employees db); employees_seq := new_id |}.

(** The database after a committed update of employee [employee_id]. *)
Definition updated (employee_id : Z) (r : EmployeeRow) (rows : list ProcessRow)
    (db : DB) : DB :=
  {| processes := rows; processes_seq := processes_seq db;
     employees := <[employee_id := r]> (employees db);
     employees_seq := employees_seq db |}.

(** The database after a committed delete of employee [employee_id]. *)
Definition removed (employee_id : Z) (rows : list ProcessRow) (db : DB) : DB :=
  {| processes := rows; processes_seq := processes_seq db;
     employees := delete employee_id (employees db);
     employees_seq := employees_seq db |}.

(** The rows after the guarded [vacancy + 1] on [process_name]. *)
Definition released (process_name : option string) (rows : list ProcessRow)
    : list ProcessRow :=
  if truthy process_name then update_rows plus_one process_name rows else rows.

Ltac tx_unfold :=
  unfold transaction, acquire, release, purge_deleted_emails,
    insert_employee, update_employee_row, delete_employee_row, update_vacancy,
    select_employee, select_process, raise, rollback, query,
    mbind, Tx_bind, mret, Tx_ret; simpl.

Lemma add_employee_unfold name email potential communication process_name db :
  add_employee name email potential communication process_name db =
  let email' := normalize email in
  if (0 <? count_email email' db)%nat then (db, Failed EmailExists)
  else if truthy process_name then
    match select_process process_name db with
    | None => (db, Failed (ProcessNotFound process_name))
    | Some found =>
        if p_vacancy found <=? 0 then (db, Failed (NoVacancy process_name))
        else
          (added (mkEmployeeRow name email' potential communication
                                (Some (p_id found)) process_name)
                 (update_rows minus_one_floor process_name (processes db)) db,
           Done "Employee added successfully")
    end
  else
    (added (mkEmployeeRow name email' potential communication None process_name)
           (processes db) db,
     Done "Employee added successfully").
Proof.
  unfold add_employee. tx_unfold.
  destruct (0 <? count_email (normalize email) db)%nat eqn:Hcount; [done|].
  apply Nat.ltb_ge in Hcount.
  assert (email_clash (normalize email) None db = ∅) as Hclash
    by (apply email_clash_insert_empty; lia).
  destruct (truthy process_name).
  - destruct (head (filter (named process_name) (processes db)))
      as [found|] eqn:Hfound; [|done].
    destruct (p_vacancy found <=? 0); [done|].
    apply select_process_rowcount in Hfound.
    destruct (length (filter (named process_name) (processes db))); [done|].
    simpl. unfold email_clash in *. simpl. by rewrite decide_True.
  - unfold email_clash in *. simpl. by rewrite decide_True.
Qed.

Lemma update_employee_unfold employee_id name email potential communication
    process_name db :
  update_employee employee_id name email potential communication process_name db =
  let email' := normalize email in
  if decide (select_other_email email' employee_id db ≠ ∅)
  then (db, Failed EmailExistsOther)
  else
    match employees db !! employee_id with
    | None => (db, Failed EmployeeNotFound)
    | Some current =>
        let old_process := e_process_name current in
        if decide (old_process ≠ process_name) then
          let rows := released old_process (processes db) in
          if truthy process_name then
            match head (filter (named process_name) rows) with
            | None => (db, Failed (ProcessNotFound process_name))
            | Some found =>
                if p_vacancy found <=? 0
                then (db, Failed (NoVacancy process_name))
                else
                  (updated employee_id
                     (mkEmployeeRow name email' potential communication
                                    (Some (p_id found)) process_name)
                     (update_rows minus_one_floor process_name rows) db,
                   Done "Employee updated successfully")
            end
          else
            (updated employee_id
               (mkEmployeeRow name email' potential communication
                              None process_name) rows db,
             Done "Employee updated successfully")
        else
          (updated employee_id
             (mkEmployeeRow name email' potential communication
                (if truthy process_name
                 then p_id <$> select_process process_name db else None)
                process_name)
             (processes db) db,
           Done "Employee updated successfully")
    end.
Proof.
  unfold update_employee, released. tx_unfold.
  destruct (decide (select_other_email (normalize email) employee_id db ≠ ∅))
    as [Hother|Hother]; [done|].
  apply dec_stable in Hother.
  apply email_clash_update_empty in Hother. unfold email_clash in Hother.
  destruct (employees db !! employee_id) as [current|] eqn:Hcurrent; [|done].
  destruct (decide (e_process_name current ≠ process_name)) as [Hchange|Hsame].
  - destruct (truthy (e_process_name current)); simpl;
      (destruct (truthy process_name); simpl;
       [ match goal with
         | |- context [head (filter (named process_name) ?rows)] =>
             destruct (head (filter (named process_name) rows))
               as [found|] eqn:Hfound; [|done];
             destruct (p_vacancy found <=? 0); [done|];
             apply select_process_rowcount, Nat.eqb_neq in Hfound;
             simpl; rewrite Hfound
         end
       | ]; simpl; unfold email_clash; simpl;
       rewrite ?Hcurrent, decide_True by done; done).
  - destruct (truthy process_name); simpl; unfold email_clash; simpl;
      rewrite ?Hcurrent, decide_True by done; done.
Qed.

Lemma delete_employee_unfold employee_id db :
  delete_employee employee_id db =
  match employees db !! employee_id with
  | None => (db, Failed EmployeeNotFound)
  | Some current =>
      let process_name := e_process_name current in
      (removed employee_id (released process_name (processes db)) db,
       Done ("Employee deleted and process '"
             +:+ (if truthy process_name then text_of process_name else "None")
             +:+ "' vacancy updated"))
  end.
Proof.
  unfold delete_employee, released. tx_unfold.
  destruct (employees db !! employee_id) as [current|] eqn:Hcurrent; [|done].
  simpl. rewrite Hcurrent. by destruct (truthy (e_process_name current)).
Qed.

Lemma update_process_vacancy_unfold process_name change db :
  update_process_vacancy process_name change db =
  if is_int64 change then
    match select_process (Some process_name) db with
    | None => (db, Returns false)
    | Some _ =>
        ({| processes :=
              update_rows (if change <? 0 then add_floor change else add_plain change)
                          (Some process_name) (processes db);
            processes_seq := processes_seq db;
            employees := employees db;
            employees_seq := employees_seq db |}, Returns true)
    end
  else (db, Raises OverflowError).
Proof.
  unfold update_process_vacancy, update_vacancy, select_process. simpl.
  destruct (is_int64 change); [|done].
  assert (∀ expr,
    filter (named (Some process_name))
           (update_rows expr (Some process_name) (processes db))
    = update_rows expr (Some process_name)
        (filter (named (Some process_name)) (processes db))) as Hfilter.
  { intros expr. unfold update_rows.
    induction (processes db) as [|p rows IH]; [done|].
    rewrite fmap_cons, !filter_cons.
    destruct (decide (named (Some process_name) p)) as [Hn|Hn].
    - rewrite decide_True by exact Hn. rewrite fmap_cons, IH.
      by rewrite decide_True by exact Hn.
    - rewrite decide_False by exact Hn. exact IH. }
  destruct (change <? 0); simpl; rewrite Hfilter;
    destruct (filter (named (Some process_name)) (processes db)); done.
Qed.

(** *** Looking a process up by name *)

Lemma select_process_None process_name db :
  select_process process_name db = None ↔
  ∀ p, p ∈ processes db → ¬ named process_name p.
Proof.
  unfold select_process. split.
  - intros Hhead p Hp Hn.
    assert (p ∈ filter (named process_name) (processes db)) as Hin
      by (by apply list_elem_of_filter).
    destruct (filter (named process_name) (processes db)); [|done].
    by apply not_elem_of_nil in Hin.
  - intros Hnone.
    destruct (filter (named process_name) (processes db)) as [|p rows] eqn:Hf;
      [done|].
    assert (p ∈ filter (named process_name) (processes db)) as Hin
      by (rewrite Hf; apply list_elem_of_here).
    apply list_elem_of_filter in Hin as [Hn Hp]. by destruct (Hnone p Hp).
Qed.

Lemma select_process_Some process_name db found :
  select_process process_name db = Some found →
  found ∈ processes db ∧ named process_name found.
Proof.
  unfold select_process. intros Hhead.
  assert (found ∈ filter (named process_name) (processes db)) as Hin.
  { destruct (filter (named process_name) (processes db)) as [|p rows];
      [done|]. injection Hhead as ->. apply list_elem_of_here. }
  apply list_elem_of_filter in Hin as [Hn Hp]. done.
Qed.

(** *** Adjusting a vacancy *)

(** The vacancy the specification prescribes for a change of [change]. *)
Definition adjusted (change vacancy : Z) : Z :=
  if decide (change < 0) then Z.max (vacancy + change) 0 else vacancy + change.

(** Rounding to binary64 keeps the sign. *)
Lemma nearest_double_pos m : 0 < m → 0 < nearest_double m.
Proof.
  intros Hm. unfold nearest_double.
  destruct (Z.ltb_spec m (2 ^ 53)) as [|Hbig]; [done|].
  assert (53 ≤ Z.log2 m) as Hlog by (apply Z.log2_le_pow2; lia).
  set (ulp := 2 ^ (Z.log2 m - 52)).
  assert (0 < ulp) as Hulp by (apply Z.pow_pos_nonneg; lia).
  assert (ulp ≤ m) as Hle.
  { transitivity (2 ^ Z.log2 m).
    - apply Z.pow_le_mono_r; lia.
    - apply Z.log2_spec. lia. }
  assert (1 ≤ m / ulp) as Hq by (apply Z.div_le_lower_bound; lia).
  cbv zeta. repeat case_match; nia.
Qed.

Lemma to_double_sgn z : Z.sgn (to_double z) = Z.sgn z.
Proof.
  unfold to_double. destruct (Z.lt_trichotomy z 0) as [Hz|[->|Hz]].
  - pose proof (nearest_double_pos (Z.abs z) ltac:(lia)).
    rewrite (Z.sgn_neg z) by done. rewrite Z.sgn_neg; lia.
  - done.
  - pose proof (nearest_double_pos (Z.abs z) ltac:(lia)).
    rewrite (Z.sgn_pos z) by done. rewrite Z.sgn_pos; lia.
Qed.

Lemma to_double_nonneg z : 0 ≤ z → 0 ≤ to_double z.
Proof.
  intros Hz. apply Z.sgn_nonneg. rewrite to_double_sgn. by apply Z.sgn_nonneg.
Qed.

Lemma to_double_nonpos z : z ≤ 0 → to_double z ≤ 0.
Proof.
  intros Hz. apply Z.sgn_nonpos. rewrite to_double_sgn. by apply Z.sgn_nonpos.
Qed.

Lemma to_double_neg z : z < 0 → to_double z < 0.
Proof.
  intros Hz. apply Z.sgn_neg_iff. rewrite to_double_sgn. by apply Z.sgn_neg_iff.
Qed.

Lemma is_int64_spec z : is_int64 z = true ↔ min_int64 ≤ z ≤ max_int64.
Proof. unfold is_int64. rewrite andb_true_iff, !Z.leb_le. done. Qed.

Lemma sql_add_exact a b :
  is_int64 a = true → is_int64 b = true → is_int64 (a + b) = true →
  sql_add a b = a + b.
Proof. unfold sql_add. by intros -> -> ->. Qed.

Lemma sql_add_nonneg a b : 0 ≤ a → 0 ≤ b → 0 ≤ sql_add a b.
Proof.
  intros Ha Hb. unfold sql_add. case_match; [lia|].
  apply to_double_nonneg.
  pose proof (to_double_nonneg a Ha). pose proof (to_double_nonneg b Hb). lia.
Qed.

(** A sum of INTEGERs below the 64-bit range is a negative REAL. *)
Lemma sql_add_underflow a b :
  is_int64 a = true → is_int64 b = true → a + b < min_int64 → sql_add a b < 0.
Proof.
  intros Ha%is_int64_spec Hb%is_int64_spec Hsum. unfold sql_add.
  destruct (is_int64 (a + b)) eqn:Hin.
  { apply is_int64_spec in Hin. lia. }
  rewrite andb_false_r. unfold min_int64, max_int64 in *.
  apply to_double_neg.
  pose proof (to_double_neg a ltac:(lia)).
  pose proof (to_double_neg b ltac:(lia)). lia.
Qed.

(** Within 64 bits the two statements of [update_process_vacancy] compute
    the prescribed vacancy: a decrease of any INTEGER, and an increase
    whose sum is an INTEGER. *)
Lemma adjusted_expr change vacancy :
  is_int64 change = true → is_int64 vacancy = true →
  (0 ≤ change → vacancy + change ≤ max_int64) →
  (if change <? 0 then add_floor change else add_plain change) vacancy
  = adjusted change vacancy.
Proof.
  intros Hchange Hvacancy Hsum. unfold adjusted, add_floor, add_plain.
  pose proof (proj1 (is_int64_spec _) Hchange) as Hc.
  pose proof (proj1 (is_int64_spec _) Hvacancy) as Hv.
  destruct (Z.ltb_spec change 0) as [Hneg|Hpos].
  - rewrite decide_True by done.
    destruct (Z.le_gt_cases min_int64 (vacancy + change)) as [Hlow|Hlow].
    + rewrite sql_add_exact; [|done|done|apply is_int64_spec; lia].
      destruct (Z.ltb_spec (vacancy + change) 0); lia.
    + pose proof (sql_add_underflow vacancy change Hvacancy Hchange Hlow).
      destruct (Z.ltb_spec (sql_add vacancy change) 0); [|lia].
      unfold min_int64 in *. lia.
  - rewrite decide_False by lia.
    apply sql_add_exact; [done|done|]. apply is_int64_spec.
    specialize (Hsum Hpos). lia.
Qed.

(** A [change] outside 64 bits cannot be bound: the call raises and the
    database is as it was. *)
Lemma update_process_vacancy_unbindable process_name change db :
  is_int64 change = false →
  update_process_vacancy process_name change db = (db, Raises OverflowError).
Proof. intros Hchange. by rewrite update_process_vacancy_unfold, Hchange. Qed.


(** *** Vacancies stay non-negative *)

Definition vacancies_nonneg (db : DB) : Prop :=
  Forall (λ p, 0 ≤ p_vacancy p) (processes db).

Lemma update_rows_nonneg expr process_name rows :
  (∀ v, 0 ≤ v → 0 ≤ expr v) →
  Forall (λ p, 0 ≤ p_vacancy p) rows →
  Forall (λ p, 0 ≤ p_vacancy p) (update_rows expr process_name rows).
Proof.
  intros Hexpr Hrows. unfold update_rows. apply Forall_fmap.
  eapply Forall_impl; [exact Hrows|]. intros p Hp. simpl.
  destruct (decide (named process_name p)); simpl; auto.
Qed.

Lemma plus_one_nonneg v : 0 ≤ v → 0 ≤ plus_one v.
Proof. unfold plus_one. lia. Qed.

Lemma minus_one_floor_nonneg v : 0 ≤ v → 0 ≤ minus_one_floor v.
Proof. unfold minus_one_floor. destruct (Z.ltb_spec 0 v); lia. Qed.

Lemma adjust_nonneg change v :
  0 ≤ v → 0 ≤ (if change <? 0 then add_floor change else add_plain change) v.
Proof.
  intros Hv. unfold add_floor, add_plain.
  destruct (Z.ltb_spec change 0).
  - destruct (Z.ltb_spec (sql_add v change) 0); lia.
  - by apply sql_add_nonneg.
Qed.

Lemma released_nonneg process_name rows :
  Forall (λ p, 0 ≤ p_vacancy p) rows →
  Forall (λ p, 0 ≤ p_vacancy p) (released process_name rows).
Proof.
  unfold released. destruct (truthy process_name); [|done].
  apply update_rows_nonneg, plus_one_nonneg.
Qed.

Create HintDb ledger.

#[local] Hint Resolve update_rows_nonneg plus_one_nonneg minus_one_floor_nonneg
  adjust_nonneg released_nonneg : ledger.

Lemma call_nonneg c db :
  keeps_catalog c = true → vacancies_nonneg db → vacancies_nonneg (call c db).
Proof.
  unfold vacancies_nonneg. intros Hc Hdb. destruct c; simpl in *; [| | | |done].
  - rewrite update_process_vacancy_unfold.
    destruct (is_int64 change); [|done].
    destruct (select_process _ db); simpl; auto with ledger.
  - rewrite add_employee_unfold. simpl. repeat case_match; simpl; auto with ledger.
  - rewrite update_employee_unfold. simpl.
    repeat case_match; simpl; auto 6 with ledger.
  - rewrite delete_employee_unfold. repeat case_match; simpl; auto with ledger.
Qed.

(** C1: whatever sequence of vacancy adjustments, additions, edits and
    deletions is run on a catalogue of non-negative vacancies, every
    process has a non-negative vacancy afterwards (hence after each call of
    the sequence, every prefix being such a sequence). *)
Theorem vacancy_never_negative (cs : list Call) (db : DB) :
  Forall (λ c, keeps_catalog c = true) cs →
  vacancies_nonneg db →
  vacancies_nonneg (run cs db).
Proof.
  unfold run. revert db.
  induction cs as [|c cs IH]; intros db Hcs Hdb; [done|].
  apply Forall_cons in Hcs as [Hc Hcs]. simpl.
  apply IH; [done|]. by apply call_nonneg.
Qed.

(** *** Editing an employee *)

Lemma released_filter_other old_process process_name rows :
  old_process ≠ process_name →
  filter (named process_name) (released old_process rows)
  = filter (named process_name) rows.
Proof.
  intros Hne. unfold released. destruct (truthy old_process); [|done].
  by apply filter_named_update_rows.
Qed.

(** C2: an edit that moves an employee to a process (one that differs from
    the current assignment) which is absent from the catalogue or has no
    vacancy left returns an error and leaves the database exactly as it was:
    the employee row and every vacancy, that of the old process included. *)
Theorem update_employee_rejected_edit_is_atomic
    (employee_id : Z) (name email potential communication : string)
    (process_name : option string) (db : DB) :
  truthy process_name = true →
  (∀ current, employees db !! employee_id = Some current →
              e_process_name current ≠ process_name) →
  match select_process process_name db with
  | None => True
  | Some found => p_vacancy found ≤ 0
  end →
  ∃ e,
    update_employee employee_id name email potential communication
                    process_name db = (db, Failed e)
    ∧ (e = EmailExistsOther ∨ e = EmployeeNotFound
       ∨ (select_process process_name db = None ∧ e = ProcessNotFound process_name)
       ∨ (is_Some (select_process process_name db) ∧ e = NoVacancy process_name)).
Proof.
  intros Htruthy Hnew Hinvalid. rewrite update_employee_unfold. simpl.
  destruct (decide (select_other_email (normalize email) employee_id db ≠ ∅)).
  { exists EmailExistsOther. split; [done|]. by left. }
  destruct (employees db !! employee_id) as [current|] eqn:Hcurrent.
  2: { exists EmployeeNotFound. split; [done|]. right. by left. }
  specialize (Hnew current eq_refl).
  rewrite decide_True by done. rewrite Htruthy.
  rewrite released_filter_other by done.
  unfold select_process in *.
  destruct (head (filter (named process_name) (processes db))) as [found|].
  2: { exists (ProcessNotFound process_name). split; [done|].
       right. right. by left. }
  destruct (Z.leb_spec (p_vacancy found) 0); [|lia].
  exists (NoVacancy process_name). split; [done|].
  right. right. right. split; [by eexists|done].
Qed.

(** C4, as the code has it: an edit of an employee id that does not exist
    always fails and changes nothing; it reports that the employee was not
    found unless the normalised address is, up to case, the address of an
    existing employee, which is reported first. *)
Theorem update_employee_absent_id
    (employee_id : Z) (name email potential communication : string)
    (process_name : option string) (db : DB) :
  employees db !! employee_id = None →
  ((∃ i e, employees db !! i = Some e
           ∧ sql_lower (e_email e) = sql_lower (normalize email)) →
   update_employee employee_id name email potential communication
                   process_name db = (db, Failed EmailExistsOther))
  ∧ (¬ (∃ i e, employees db !! i = Some e
               ∧ sql_lower (e_email e) = sql_lower (normalize email)) →
     update_employee employee_id name email potential communication
                     process_name db = (db, Failed EmployeeNotFound)).
Proof.
  intros Habsent. rewrite update_employee_unfold. simpl. rewrite Habsent.
  split.
  - intros (i & e & Hi & Heq). rewrite decide_True; [done|].
    intros Hempty. eapply select_other_email_empty; [done..| |done].
    intros ->. congruence.
  - intros Hfree. rewrite decide_False; [done|].
    intros Hother. apply Hother. apply select_other_email_empty.
    intros i e Hi _ Heq. apply Hfree. eauto.
Qed.

(** C10, as the code has it: when the requested process is the employee's
    current one and the catalogue no longer holds it, the edit never fails
    for the missing process and touches no vacancy; it succeeds, keeping the
    process name on the employee, provided the normalised address is not, up
    to case, the address of another employee. *)
Theorem update_employee_same_missing_process
    (employee_id : Z) (name email potential communication : string)
    (process_name : option string) (db : DB) (current : EmployeeRow) :
  employees db !! employee_id = Some current →
  e_process_name current = process_name →
  select_process process_name db = None →
  let result := update_employee employee_id name email potential communication
                                process_name db in
  processes result.1 = processes db
  ∧ result.2 ≠ Failed (ProcessNotFound process_name)
  ∧ (select_other_email (normalize email) employee_id db = ∅ →
     succeeded result.2 = true
     ∧ employees result.1
       = <[employee_id := mkEmployeeRow name (normalize email) potential
                            communication None process_name]> (employees db)).
Proof.
  intros Hcurrent Hsame Hmissing. simpl.
  rewrite update_employee_unfold. simpl. rewrite Hcurrent.
  destruct (decide (select_other_email (normalize email) employee_id db ≠ ∅))
    as [Hother|Hother]; simpl.
  - split; [done|]. split; [done|]. intros Hempty. by destruct Hother.
  - rewrite decide_False by (intros Hne; by apply Hne).
    simpl. split; [done|]. split; [done|]. intros _. split; [done|].
    rewrite Hmissing. simpl. by destruct (truthy process_name).
Qed.

(** *** Deleting an employee *)

Lemma released_lookup process_name rows k :
  released process_name rows !! k
  = (λ p, if decide (truthy process_name = true ∧ named process_name p)
          then set_vacancy (p_vacancy p + 1) p else p) <$> rows !! k.
Proof.
  unfold released. destruct (truthy process_name).
  - rewrite update_rows_lookup. destruct (rows !! k) as [p|]; [|done].
    simpl. f_equal.
    destruct (decide (named process_name p)) as [Hn|Hn];
      [rewrite decide_True by done|rewrite decide_False by (by intros [_ ?])];
      reflexivity.
  - by destruct (rows !! k).
Qed.




(** *** Fresh identifiers *)

Lemma foldr_max_bound (l : list Z) (x : Z) : x ∈ l → x ≤ foldr Z.max 0 l.
Proof.
  induction l as [|y l IH]; intros Hx; [by apply not_elem_of_nil in Hx|].
  simpl. apply elem_of_cons in Hx as [->|Hx]; [lia|]. apply IH in Hx. lia.
Qed.

Lemma max_id_bound (m : gmap Z EmployeeRow) i e : m !! i = Some e → i ≤ max_id m.
Proof.
  intros Hi. unfold max_id. apply foldr_max_bound.
  apply list_elem_of_fmap. exists (i, e). split; [done|].
  by apply elem_of_map_to_list.
Qed.

(** AUTOINCREMENT never hands out an identifier in use. *)
Lemma fresh_id db :
  employees db !! (Z.max (employees_seq db) (max_id (employees db)) + 1) = None.
Proof.
  destruct (employees db !! _) as [e|] eqn:Hi; [|done].
  apply max_id_bound in Hi. lia.
Qed.

(** *** Addresses stay unique *)

Definition emails_normalized (db : DB) : Prop :=
  ∀ i e, employees db !! i = Some e → normalize (e_email e) = e_email e.

Definition emails_unique (db : DB) : Prop :=
  ∀ i j ei ej,
    employees db !! i = Some ei → employees db !! j = Some ej →
    normalize (e_email ei) = normalize (e_email ej) → i = j.

Definition email_invariant (db : DB) : Prop :=
  emails_normalized db ∧ emails_unique db.

Lemma email_invariant_init : email_invariant init_db.
Proof. split; intros i; intros; simpl in *; by rewrite lookup_empty in *. Qed.

Lemma email_invariant_ext db db' :
  employees db' = employees db → email_invariant db → email_invariant db'.
Proof.
  unfold email_invariant, emails_normalized, emails_unique.
  intros ->. done.
Qed.

Lemma updated_email_invariant employee_id r rows db :
  email_invariant db →
  normalize (e_email r) = e_email r →
  select_other_email (e_email r) employee_id db = ∅ →
  email_invariant (updated employee_id r rows db).
Proof.
  intros [Hnorm Huniq] Hr Hother.
  pose proof (proj1 (select_other_email_empty _ _ _) Hother) as Hfree.
  assert (∀ j ej, employees db !! j = Some ej → j ≠ employee_id →
                  normalize (e_email ej) ≠ normalize (e_email r)) as Hdiff.
  { intros j ej Hj Hne Heq. apply (Hfree j ej Hj Hne).
    rewrite (Hnorm j ej Hj), Hr in Heq. by rewrite Heq. }
  split.
  - intros i e. simpl. rewrite lookup_insert.
    case_decide; [by intros [= <-]|]. apply Hnorm.
  - intros i j ei ej. simpl. rewrite !lookup_insert.
    repeat case_decide; subst; intros Hi Hj Heq; simplify_eq; try done.
    + by destruct (Hdiff j ej Hj).
    + symmetry in Heq. by destruct (Hdiff i ei Hi).
    + by eapply Huniq.
Qed.

Lemma added_email_invariant r rows db :
  email_invariant db →
  normalize (e_email r) = e_email r →
  count_email (e_email r) db = 0%nat →
  email_invariant (added r rows db).
Proof.
  intros Hinv Hr Hcount.
  apply (email_invariant_ext
           (updated (Z.max (employees_seq db) (max_id (employees db)) + 1)
                    r rows db)); [done|].
  apply updated_email_invariant; [done..|].
  apply select_other_email_empty. intros i e Hi _.
  by apply (count_email_zero _ _ Hcount i e).
Qed.

Lemma removed_email_invariant employee_id rows db :
  email_invariant db → email_invariant (removed employee_id rows db).
Proof.
  intros [Hnorm Huniq]. split.
  - intros i e. simpl. intros Hi%lookup_delete_Some. by apply (Hnorm i), Hi.
  - intros i j ei ej. simpl.
    intros [_ Hi]%lookup_delete_Some [_ Hj]%lookup_delete_Some.
    by apply Huniq.
Qed.

Lemma call_email_invariant c db : email_invariant db → email_invariant (call c db).
Proof.
  intros Hinv. destruct c; simpl.
  - rewrite update_process_vacancy_unfold.
    destruct (is_int64 change); [|done].
    destruct (select_process _ db); simpl; [|done].
    by eapply email_invariant_ext.
  - rewrite add_employee_unfold. simpl.
    destruct (0 <? count_email (normalize email) db)%nat eqn:Hcount; [done|].
    apply Nat.ltb_ge in Hcount.
    repeat case_match; simpl; try done;
      (apply added_email_invariant; simpl;
       [done|apply normalize_idem|lia]).
  - rewrite update_employee_unfold. simpl.
    destruct (decide (select_other_email (normalize email) employee_id db ≠ ∅))
      as [Hother|Hother]; [done|]. apply dec_stable in Hother.
    repeat case_match; simpl; try done;
      (apply updated_email_invariant; simpl;
       [done|apply normalize_idem|done]).
  - rewrite delete_employee_unfold.
    destruct (employees db !! employee_id); simpl; [|done].
    by apply removed_email_invariant.
  - unfold save_processes_to_db. destruct (insert_processes _ _ _).
    by eapply email_invariant_ext.
Qed.

Lemma run_email_invariant cs db : email_invariant db → email_invariant (run cs db).
Proof.
  unfold run. revert db. induction cs as [|c cs IH]; intros db Hinv; [done|].
  simpl. by apply IH, call_email_invariant.
Qed.

Lemma normalized_match db i e email :
  emails_normalized db → employees db !! i = Some e →
  normalize (e_email e) = normalize email →
  sql_lower (e_email e) = sql_lower (normalize email).
Proof. intros Hnorm Hi Heq. rewrite <- (Hnorm i e Hi). by rewrite Heq. Qed.

(** C5: in every database reached from the empty one, no two employees have
    the same normalised address; an [add_employee] whose normalised address
    is that of an existing employee is refused as a duplicate, and so is an
    [update_employee] whose normalised address is that of another employee.
    Normalisation trims and lowercases, so the comparison ignores case. *)
Theorem emails_stay_unique (cs : list Call) :
  let db := run cs init_db in
  emails_unique db
  ∧ (∀ name email potential communication process_name,
       (∃ i e, employees db !! i = Some e
               ∧ normalize (e_email e) = normalize email) →
       add_employee name email potential communication process_name db
       = (db, Failed EmailExists))
  ∧ (∀ employee_id name email potential communication process_name,
       (∃ i e, employees db !! i = Some e ∧ i ≠ employee_id
               ∧ normalize (e_email e) = normalize email) →
       update_employee employee_id name email potential communication
                       process_name db
       = (db, Failed EmailExistsOther)).
Proof.
  simpl. destruct (run_email_invariant cs init_db email_invariant_init)
    as [Hnorm Huniq].
  split; [done|]. split.
  - intros name email potential communication process_name (i & e & Hi & Heq).
    rewrite add_employee_unfold. simpl.
    assert (0 < count_email (normalize email) (run cs init_db))%nat as Hpos.
    { apply count_email_pos. exists i, e. split; [done|].
      by eapply normalized_match. }
    apply Nat.ltb_lt in Hpos. by rewrite Hpos.
  - intros employee_id name email potential communication process_name
      (i & e & Hi & Hne & Heq).
    rewrite update_employee_unfold. simpl. rewrite decide_True; [done|].
    intros Hempty. eapply select_other_email_empty; [done..|].
    by eapply normalized_match.
Qed.

(** *** Conservation of slots *)

(** Employee [kv] holds a slot of the process named [n]: the code treats an
    empty name like [None], as no assignment. *)
Definition holds (n : string) (kv : Z * EmployeeRow) : Prop :=
  e_process_name kv.2 = Some n ∧ truthy (Some n) = true.

#[global] Instance holds_dec n kv : Decision (holds n kv).
Proof. unfold holds. apply _. Defined.

(** The number of employees holding a slot of the process named [n]. *)
Definition holders (n : string) (db : DB) : nat :=
  size (filter (holds n) (employees db)).

(** 1 when an employee whose [process_name] is [o] holds a slot of [n]. *)
Definition holding (n : string) (o : option string) : Z :=
  if decide (o = Some n ∧ truthy (Some n) = true) then 1 else 0.

Lemma holders_insert_fresh n (m : gmap Z EmployeeRow) i e :
  m !! i = None →
  Z.of_nat (size (filter (holds n) (<[i:=e]> m)))
  = Z.of_nat (size (filter (holds n) m)) + holding n (e_process_name e).
Proof.
  intros Hi. rewrite map_filter_insert. unfold holding.
  destruct (decide (holds n (i, e))) as [Hh|Hh].
  - rewrite decide_True by exact Hh.
    rewrite map_size_insert_None; [lia|].
    apply map_lookup_filter_None. by left.
  - rewrite decide_False by exact Hh. rewrite delete_id by done. lia.
Qed.

Lemma holders_delete n (m : gmap Z EmployeeRow) i e :
  m !! i = Some e →
  Z.of_nat (size (filter (holds n) (delete i m)))
  = Z.of_nat (size (filter (holds n) m)) - holding n (e_process_name e).
Proof.
  intros Hi.
  rewrite <- (insert_id m i e Hi) at 2. rewrite <- insert_delete_eq.
  rewrite holders_insert_fresh by apply lookup_delete_eq. lia.
Qed.

Lemma holders_replace n (m : gmap Z EmployeeRow) i e e' :
  m !! i = Some e →
  Z.of_nat (size (filter (holds n) (<[i:=e']> m)))
  = Z.of_nat (size (filter (holds n) m))
    - holding n (e_process_name e) + holding n (e_process_name e').
Proof.
  intros Hi. rewrite <- insert_delete_eq.
  rewrite holders_insert_fresh by apply lookup_delete_eq.
  by rewrite (holders_delete n m i e).
Qed.

Lemma holding_falsy n o : truthy o = false → holding n o = 0.
Proof.
  intros Hfalsy. unfold holding. rewrite decide_False; [done|].
  intros [-> Ht]. congruence.
Qed.

Lemma holding_named n o p :
  p_process_name p = n →
  holding n o = if decide (truthy o = true ∧ named o p) then 1 else 0.
Proof.
  intros <-. unfold holding, named.
  destruct (decide (o = Some (p_process_name p) ∧ truthy (Some (p_process_name p)) = true))
    as [[-> Ht]|Hno].
  - by rewrite decide_True.
  - rewrite decide_False; [done|]. intros [Ht Hn]. apply Hno.
    split; [done|]. by rewrite Hn.
Qed.

(** With unique names the row found by name is the row itself. *)
Lemma select_unique process_name rows k p :
  NoDup (p_process_name <$> rows) →
  rows !! k = Some p → named process_name p →
  head (filter (named process_name) rows) = Some p.
Proof.
  revert k. induction rows as [|q rows IH]; intros k Hnodup Hk Hn; [done|].
  rewrite fmap_cons in Hnodup. apply NoDup_cons in Hnodup as [Hq Hnodup].
  rewrite filter_cons. destruct k as [|k]; simpl in Hk.
  - injection Hk as ->. by rewrite decide_True.
  - destruct (decide (named process_name q)) as [Hnq|Hnq]; [|by eapply IH].
    destruct Hq. apply list_elem_of_fmap. exists p.
    split; [unfold named in *; congruence|by eapply list_elem_of_lookup_2].
Qed.

(** Releasing [o] gives one slot back to the row, if the row is the one an
    employee assigned to [o] holds. *)
Lemma released_row o rows k p0 :
  rows !! k = Some p0 →
  ∃ p1, released o rows !! k = Some p1
        ∧ p_process_name p1 = p_process_name p0
        ∧ p_vacancy p1 = p_vacancy p0 + holding (p_process_name p0) o.
Proof.
  intros Hk. rewrite released_lookup, Hk. simpl.
  rewrite (holding_named _ o p0 eq_refl).
  eexists. split; [done|]. case_decide; simpl; split; [done|lia|done|lia].
Qed.

(** Acquiring [o] takes exactly one slot from the row an employee assigned
    to [o] will hold, the check having found a vacancy there. *)
Lemma acquired_row o rows found k p1 :
  NoDup (p_process_name <$> rows) →
  truthy o = true →
  head (filter (named o) rows) = Some found →
  0 < p_vacancy found →
  rows !! k = Some p1 →
  ∃ p2, update_rows minus_one_floor o rows !! k = Some p2
        ∧ p_process_name p2 = p_process_name p1
        ∧ p_vacancy p2 = p_vacancy p1 - holding (p_process_name p1) o.
Proof.
  intros Hnodup Htruthy Hfound Hvac Hk. rewrite update_rows_lookup, Hk. simpl.
  rewrite (holding_named _ o p1 eq_refl).
  eexists. split; [done|].
  destruct (decide (named o p1)) as [Hn|Hn].
  - rewrite decide_True by done. simpl. split; [done|].
    rewrite (select_unique o rows k p1) in Hfound by done.
    injection Hfound as <-. unfold minus_one_floor.
    destruct (Z.ltb_spec 0 (p_vacancy p1)); lia.
  - rewrite decide_False by (by intros [_ ?]). split; [done|lia].
Qed.

Lemma released_names o rows :
  p_process_name <$> released o rows = p_process_name <$> rows.
Proof. unfold released. destruct (truthy o); [apply update_rows_names|done]. Qed.

(** What one ledger call keeps: the names of the catalogue and, row by row,
    the sum of the vacancy and the number of holders. *)
Definition conserved (db db' : DB) : Prop :=
  p_process_name <$> processes db' = p_process_name <$> processes db
  ∧ ∀ k p0, processes db !! k = Some p0 →
      ∃ p, processes db' !! k = Some p
           ∧ Z.of_nat (holders (p_process_name p0) db') + p_vacancy p
             = Z.of_nat (holders (p_process_name p0) db) + p_vacancy p0.

Lemma conserved_refl db : conserved db db.
Proof. split; [done|]. intros k p0 Hk. by exists p0. Qed.

Lemma conserved_trans db1 db2 db3 :
  conserved db1 db2 → conserved db2 db3 → conserved db1 db3.
Proof.
  intros [Hn12 H12] [Hn23 H23]. split; [congruence|].
  intros k p0 Hk. destruct (H12 k p0 Hk) as (p1 & Hk1 & Heq1).
  destruct (H23 k p1 Hk1) as (p2 & Hk2 & Heq2).
  assert (p_process_name p1 = p_process_name p0) as Hname.
  { assert ((p_process_name <$> processes db2) !! k
            = (p_process_name <$> processes db1) !! k) as Hl by by rewrite Hn12.
    rewrite !list_lookup_fmap, Hk, Hk1 in Hl. by injection Hl. }
  rewrite Hname in Heq2. exists p2. split; [done|lia].
Qed.

Lemma add_employee_conserved name email potential communication process_name db :
  NoDup (p_process_name <$> processes db) →
  conserved db (add_employee name email potential communication process_name db).1.
Proof.
  intros Hnodup. rewrite add_employee_unfold. simpl.
  destruct (0 <? count_email (normalize email) db)%nat; [apply conserved_refl|].
  destruct (truthy process_name) eqn:Htruthy.
  - unfold select_process.
    destruct (head (filter (named process_name) (processes db)))
      as [found|] eqn:Hfound; [|apply conserved_refl].
    destruct (Z.leb_spec (p_vacancy found) 0); [apply conserved_refl|].
    split; [apply update_rows_names|]. intros k p0 Hk. simpl.
    destruct (acquired_row process_name (processes db) found k p0)
      as (p & Hp & _ & Hv); [done..|].
    exists p. split; [done|]. unfold holders. simpl.
    rewrite holders_insert_fresh by apply fresh_id. simpl. lia.
  - split; [done|]. intros k p0 Hk. exists p0. split; [done|].
    unfold holders. simpl.
    rewrite holders_insert_fresh by apply fresh_id. simpl.
    rewrite holding_falsy by done. lia.
Qed.

Lemma update_employee_conserved employee_id name email potential communication
    process_name db :
  NoDup (p_process_name <$> processes db) →
  conserved db (update_employee employee_id name email potential communication
                                process_name db).1.
Proof.
  intros Hnodup. rewrite update_employee_unfold. simpl.
  destruct (decide (select_other_email (normalize email) employee_id db ≠ ∅));
    [apply conserved_refl|].
  destruct (employees db !! employee_id) as [current|] eqn:Hcurrent;
    [|apply conserved_refl].
  destruct (decide (e_process_name current ≠ process_name)) as [Hchange|Hsame].
  - destruct (truthy process_name) eqn:Htruthy.
    + destruct (head (filter (named process_name)
                        (released (e_process_name current) (processes db))))
        as [found|] eqn:Hfound; [|apply conserved_refl].
      destruct (Z.leb_spec (p_vacancy found) 0); [apply conserved_refl|].
      split; [simpl; by rewrite update_rows_names, released_names|].
      intros k p0 Hk. simpl.
      destruct (released_row (e_process_name current) (processes db) k p0)
        as (p1 & Hp1 & Hn1 & Hv1); [done|].
      destruct (acquired_row process_name
                  (released (e_process_name current) (processes db)) found k p1)
        as (p2 & Hp2 & _ & Hv2); [by rewrite released_names|done..|].
      exists p2. split; [done|]. unfold holders. simpl.
      rewrite (holders_replace _ _ _ current) by done. simpl.
      rewrite Hn1 in Hv2. lia.
    + split; [simpl; apply released_names|]. intros k p0 Hk. simpl.
      destruct (released_row (e_process_name current) (processes db) k p0)
        as (p1 & Hp1 & _ & Hv1); [done|].
      exists p1. split; [done|]. unfold holders. simpl.
      rewrite (holders_replace _ _ _ current) by done. simpl.
      rewrite (holding_falsy _ process_name) by done. lia.
  - apply dec_stable in Hsame. split; [done|]. intros k p0 Hk.
    exists p0. split; [done|]. unfold holders. simpl.
    rewrite (holders_replace _ _ _ current) by done. simpl.
    rewrite Hsame. lia.
Qed.

Lemma delete_employee_conserved employee_id db :
  conserved db (delete_employee employee_id db).1.
Proof.
  rewrite delete_employee_unfold.
  destruct (employees db !! employee_id) as [current|] eqn:Hcurrent;
    [|apply conserved_refl].
  split; [simpl; apply released_names|]. intros k p0 Hk. simpl.
  destruct (released_row (e_process_name current) (processes db) k p0)
    as (p1 & Hp1 & _ & Hv1); [done|].
  exists p1. split; [done|]. unfold holders. simpl.
  rewrite (holders_delete _ _ _ current) by done. lia.
Qed.

(** A successful assignment through [add_employee] takes exactly one slot
    from the process it names and touches no other row. *)
Lemma add_employee_takes_one_slot name email potential communication
    process_name db :
  NoDup (p_process_name <$> processes db) →
  succeeded (add_employee name email potential communication process_name db).2
  = true →
  ∀ k p0, processes db !! k = Some p0 →
    ∃ p, processes (add_employee name email potential communication
                                 process_name db).1 !! k = Some p
         ∧ p_process_name p = p_process_name p0
         ∧ p_vacancy p = p_vacancy p0 - holding (p_process_name p0) process_name.
Proof.
  intros Hnodup. rewrite add_employee_unfold. simpl.
  destruct (0 <? count_email (normalize email) db)%nat; [done|].
  destruct (truthy process_name) eqn:Htruthy.
  - unfold select_process.
    destruct (head (filter (named process_name) (processes db)))
      as [found|] eqn:Hfound; [|done].
    destruct (Z.leb_spec (p_vacancy found) 0); [done|].
    intros _ k p0 Hk. simpl. by eapply acquired_row.
  - intros _ k p0 Hk. simpl. exists p0.
    rewrite holding_falsy by done. split; [done|]. split; [done|lia].
Qed.

(** A successful [update_employee] gives one slot back to the process the
    employee leaves and takes one from the process the employee joins; with
    an unchanged process no vacancy moves. *)
Lemma update_employee_moves_one_slot employee_id name email potential
    communication process_name db current :
  NoDup (p_process_name <$> processes db) →
  employees db !! employee_id = Some current →
  succeeded (update_employee employee_id name email potential communication
                             process_name db).2 = true →
  ∀ k p0, processes db !! k = Some p0 →
    ∃ p, processes (update_employee employee_id name email potential
                                    communication process_name db).1 !! k = Some p
         ∧ p_process_name p = p_process_name p0
         ∧ p_vacancy p = p_vacancy p0
                         + holding (p_process_name p0) (e_process_name current)
                         - holding (p_process_name p0) process_name.
Proof.
  intros Hnodup Hcurrent. rewrite update_employee_unfold. simpl.
  rewrite Hcurrent.
  destruct (decide (select_other_email (normalize email) employee_id db ≠ ∅));
    [done|].
  destruct (decide (e_process_name current ≠ process_name)) as [Hchange|Hsame].
  - destruct (truthy process_name) eqn:Htruthy.
    + destruct (head (filter (named process_name)
                        (released (e_process_name current) (processes db))))
        as [found|] eqn:Hfound; [|done].
      destruct (Z.leb_spec (p_vacancy found) 0); [done|].
      intros _ k p0 Hk. simpl.
      destruct (released_row (e_process_name current) (processes db) k p0)
        as (p1 & Hp1 & Hn1 & Hv1); [done|].
      destruct (acquired_row process_name
                  (released (e_process_name current) (processes db)) found k p1)
        as (p2 & Hp2 & Hn2 & Hv2); [by rewrite released_names|done..|].
      exists p2. split; [done|]. split; [congruence|]. rewrite Hn1 in Hv2. lia.
    + intros _ k p0 Hk. simpl.
      destruct (released_row (e_process_name current) (processes db) k p0)
        as (p1 & Hp1 & Hn1 & Hv1); [done|].
      exists p1. split; [done|]. split; [done|].
      rewrite (holding_falsy _ process_name) by done. lia.
  - apply dec_stable in Hsame. intros _ k p0 Hk. simpl. exists p0.
    split; [done|]. split; [done|]. rewrite Hsame. lia.
Qed.

Lemma call_conserved c db :
  ledger_call c = true →
  NoDup (p_process_name <$> processes db) →
  conserved db (call c db).
Proof.
  intros Hc Hnodup. destruct c; simpl in *; try done.
  - by apply add_employee_conserved.
  - by apply update_employee_conserved.
  - apply delete_employee_conserved.
Qed.

Lemma run_conserved cs db :
  Forall (λ c, ledger_call c = true) cs →
  NoDup (p_process_name <$> processes db) →
  conserved db (run cs db).
Proof.
  unfold run. revert db.
  induction cs as [|c cs IH]; intros db Hcs Hnodup; [apply conserved_refl|].
  apply Forall_cons in Hcs as [Hc Hcs]. simpl.
  pose proof (call_conserved c db Hc Hnodup) as Hstep.
  eapply conserved_trans; [exact Hstep|].
  apply IH; [done|]. destruct Hstep as [Hnames _]. by rewrite Hnames.
Qed.

(** A successful [delete_employee] gives one slot back to the process the
    employee held and touches no other row. *)
Lemma delete_employee_gives_one_slot employee_id db :
  succeeded (delete_employee employee_id db).2 = true →
  ∀ k p0, processes db !! k = Some p0 →
    ∃ p, processes (delete_employee employee_id db).1 !! k = Some p
         ∧ p_process_name p = p_process_name p0
         ∧ p_vacancy p
           = p_vacancy p0
             + holding (p_process_name p0)
                       (employees db !! employee_id ≫= e_process_name).
Proof.
  rewrite delete_employee_unfold.
  destruct (employees db !! employee_id) as [current|] eqn:Hcurrent; [|done].
  intros _ k p0 Hk. simpl. by apply released_row.
Qed.

(** Whether the call reports success to its caller. *)
Definition reports_success (c : Call) (db : DB) : bool :=
  match c with
  | AdjustVacancy n change =>
      match (update_process_vacancy n change db).2 with
      | Returns ok => ok
      | Raises _ => false
      end
  | AddEmployee n e p c pn => succeeded (add_employee n e p c pn db).2
  | UpdateEmployee i n e p c pn => succeeded (update_employee i n e p c pn db).2
  | DeleteEmployee i => succeeded (delete_employee i db).2
  | SaveProcesses _ => true
  end.

(** The [process_name] of the employee an edit or a deletion addresses: the
    process that employee leaves. *)
Definition leaves (c : Call) (db : DB) : option string :=
  match c with
  | UpdateEmployee i _ _ _ _ _ | DeleteEmployee i =>
      employees db !! i ≫= e_process_name
  | _ => None
  end.

(** The [process_name] an addition or an edit assigns. *)
Definition joins (c : Call) : option string :=
  match c with
  | AddEmployee _ _ _ _ pn | UpdateEmployee _ _ _ _ _ pn => pn
  | _ => None
  end.

(** One successful ledger call: every row keeps its name, gets one slot
    back if the employee leaves it and gives one if the employee joins it;
    the number of its holders moves the other way. *)
Lemma call_moves_one_slot c db :
  ledger_call c = true →
  NoDup (p_process_name <$> processes db) →
  reports_success c db = true →
  ∀ k p0, processes db !! k = Some p0 →
    ∃ p, processes (call c db) !! k = Some p
         ∧ p_process_name p = p_process_name p0
         ∧ p_vacancy p
           = p_vacancy p0 + holding (p_process_name p0) (leaves c db)
             - holding (p_process_name p0) (joins c)
         ∧ Z.of_nat (holders (p_process_name p0) (call c db))
           = Z.of_nat (holders (p_process_name p0) db)
             - holding (p_process_name p0) (leaves c db)
             + holding (p_process_name p0) (joins c).
Proof.
  intros Hc Hnodup Hok k p0 Hk.
  assert (∃ p, processes (call c db) !! k = Some p
               ∧ p_process_name p = p_process_name p0
               ∧ p_vacancy p
                 = p_vacancy p0 + holding (p_process_name p0) (leaves c db)
                   - holding (p_process_name p0) (joins c))
    as (p & Hp & Hname & Hvac).
  { destruct c; simpl in *; try done.
    - destruct (add_employee_takes_one_slot name email potential communication
                  process_name db Hnodup Hok k p0 Hk) as (p & Hp & Hname & Hvac).
      exists p. split; [done|]. split; [done|].
      rewrite (holding_falsy _ None) by done. lia.
    - destruct (employees db !! employee_id) as [current|] eqn:Hcurrent.
      + by eapply update_employee_moves_one_slot.
      + rewrite update_employee_unfold, Hcurrent in Hok. simpl in Hok.
        by destruct (decide (select_other_email _ _ _ ≠ ∅)).
    - destruct (delete_employee_gives_one_slot employee_id db Hok k p0 Hk)
        as (p & Hp & Hname & Hvac).
      exists p. split; [done|]. split; [done|].
      rewrite (holding_falsy _ None) by done. lia. }
  destruct (call_conserved c db Hc Hnodup) as [_ Hrows].
  destruct (Hrows k p0 Hk) as (p' & Hp' & Heq).
  rewrite Hp in Hp'. injection Hp' as <-.
  exists p. split; [done|]. split; [done|]. split; [done|lia].
Qed.

(** A ledger call keeps every vacancy above a bound that is not positive. *)
Lemma update_rows_at_least lo expr process_name rows :
  (∀ v, lo ≤ v → lo ≤ expr v) →
  Forall (λ p, lo ≤ p_vacancy p) rows →
  Forall (λ p, lo ≤ p_vacancy p) (update_rows expr process_name rows).
Proof.
  intros Hexpr Hrows. unfold update_rows. apply Forall_fmap.
  eapply Forall_impl; [exact Hrows|]. intros p Hp. simpl.
  destruct (decide (named process_name p)); simpl; auto.
Qed.

Lemma plus_one_at_least lo v : lo ≤ v → lo ≤ plus_one v.
Proof. unfold plus_one. lia. Qed.

Lemma minus_one_floor_at_least lo v : lo ≤ 0 → lo ≤ v → lo ≤ minus_one_floor v.
Proof. unfold minus_one_floor. destruct (Z.ltb_spec 0 v); lia. Qed.

Lemma released_at_least lo process_name rows :
  Forall (λ p, lo ≤ p_vacancy p) rows →
  Forall (λ p, lo ≤ p_vacancy p) (released process_name rows).
Proof.
  unfold released. destruct (truthy process_name); [|done].
  apply update_rows_at_least, plus_one_at_least.
Qed.

Lemma call_at_least lo c db :
  lo ≤ 0 → ledger_call c = true →
  Forall (λ p, lo ≤ p_vacancy p) (processes db) →
  Forall (λ p, lo ≤ p_vacancy p) (processes (call c db)).
Proof.
  intros Hlo Hc Hdb.
  pose proof (λ v, minus_one_floor_at_least lo v Hlo) as Hminus.
  destruct c; simpl in *; try done.
  - rewrite add_employee_unfold. simpl.
    repeat case_match; simpl;
      auto using update_rows_at_least, released_at_least.
  - rewrite update_employee_unfold. simpl.
    repeat case_match; simpl;
      auto 6 using update_rows_at_least, released_at_least.
  - rewrite delete_employee_unfold.
    repeat case_match; simpl;
      auto using update_rows_at_least, released_at_least.
Qed.

Lemma run_at_least lo cs db :
  lo ≤ 0 → Forall (λ c, ledger_call c = true) cs →
  Forall (λ p, lo ≤ p_vacancy p) (processes db) →
  Forall (λ p, lo ≤ p_vacancy p) (processes (run cs db)).
Proof.
  intros Hlo. unfold run. revert db.
  induction cs as [|c cs IH]; intros db Hcs Hdb; [done|].
  apply Forall_cons in Hcs as [Hc Hcs]. simpl.
  apply IH; [done|]. by apply call_at_least.
Qed.

(** Every vacancy is an INTEGER and would still be one with the slots of
    all its holders given back. *)
Definition slots_fit (db : DB) : Prop :=
  Forall (λ p, min_int64 ≤ p_vacancy p
               ∧ p_vacancy p + Z.of_nat (holders (p_process_name p) db)
                 ≤ max_int64)
         (processes db).

(** C6: on a catalogue of uniquely named processes that is not replaced and
    whose vacancies leave room in 64 bits for the slots now held, after any
    sequence of additions, edits and deletions each process has a 64-bit
    vacancy and has lost exactly as many vacancies as it has gained
    holders; starting without holders, the number of employees holding a
    process is its initial vacancy minus its current one.  Any further
    addition, edit or deletion that reports success takes exactly one slot
    from the process the employee joins and gives exactly one back to the
    process the employee leaves, moving the employee with it; no other
    vacancy changes. *)
Theorem slots_are_conserved (cs : list Call) (db : DB) :
  Forall (λ c, ledger_call c = true) cs →
  NoDup (p_process_name <$> processes db) →
  slots_fit db →
  (∀ k p0, processes db !! k = Some p0 →
     ∃ p, processes (run cs db) !! k = Some p
          ∧ p_process_name p = p_process_name p0
          ∧ is_int64 (p_vacancy p) = true
          ∧ Z.of_nat (holders (p_process_name p0) (run cs db))
            - Z.of_nat (holders (p_process_name p0) db)
            = p_vacancy p0 - p_vacancy p
          ∧ (holders (p_process_name p0) db = 0%nat →
             Z.of_nat (holders (p_process_name p0) (run cs db))
             = p_vacancy p0 - p_vacancy p))
  ∧ (∀ c, ledger_call c = true →
       reports_success c (run cs db) = true →
       ∀ k p, processes (run cs db) !! k = Some p →
         ∃ p', processes (call c (run cs db)) !! k = Some p'
               ∧ p_process_name p' = p_process_name p
               ∧ p_vacancy p'
                 = p_vacancy p
                   + holding (p_process_name p) (leaves c (run cs db))
                   - holding (p_process_name p) (joins c)
               ∧ Z.of_nat (holders (p_process_name p) (call c (run cs db)))
                 = Z.of_nat (holders (p_process_name p) (run cs db))
                   - holding (p_process_name p) (leaves c (run cs db))
                   + holding (p_process_name p) (joins c)).
Proof.
  intros Hcs Hnodup Hfit.
  destruct (run_conserved cs db Hcs Hnodup) as [Hnames Hrows]. split.
  - intros k p0 Hk.
    destruct (Hrows k p0 Hk) as (p & Hp & Heq).
    assert (min_int64 ≤ p_vacancy p) as Hlow.
    { assert (Forall (λ p, min_int64 ≤ p_vacancy p) (processes (run cs db)))
        as Hall.
      { apply run_at_least; [done|done|].
        eapply Forall_impl; [exact Hfit|]. by intros q [Hq _]. }
      rewrite Forall_forall in Hall. apply Hall.
      by eapply list_elem_of_lookup_2. }
    assert (p_vacancy p0 + Z.of_nat (holders (p_process_name p0) db)
            ≤ max_int64) as Hhigh.
    { unfold slots_fit in Hfit. rewrite Forall_forall in Hfit.
      by apply Hfit, (list_elem_of_lookup_2 _ k). }
    exists p. split; [done|]. split; [|split; [|split; lia]].
    + assert ((p_process_name <$> processes (run cs db)) !! k
              = (p_process_name <$> processes db) !! k) as Hl by by rewrite Hnames.
      rewrite !list_lookup_fmap, Hk, Hp in Hl. by injection Hl.
    + apply is_int64_spec. lia.
  - intros c Hc Hok. apply call_moves_one_slot; [done| |done].
    by rewrite Hnames.
Qed.

(** *** Scenarios *)

(** A catalogue with one free slot in [P] and none in [Q]. *)
Definition catalog_PQ : list MatchingEngine.Process :=
  [ MatchingEngine.mkProcess "P" "Sales" "Good" 1;
    MatchingEngine.mkProcess "Q" "Support" "Good" 0 ].

Definition db_loaded : DB := run [SaveProcesses catalog_PQ] init_db.

Definition add_ann : Call := AddEmployee "Ann" "ann@x.com" "Sales" "Good" (Some "P").
Definition add_bob : Call := AddEmployee "Bob" "bob@x.com" "Support" "Good" None.

(** Ann holds the last slot of [P]. *)
Definition db_ann : DB := run [add_ann] db_loaded.

Definition ann : EmployeeRow :=
  mkEmployeeRow "Ann" "ann@x.com" "Sales" "Good" (Some 1) (Some "P").

(** Ann and Bob, after the catalogue was replaced by an empty one: Ann's
    process is gone. *)
Definition db_replaced : DB :=
  run [add_ann; add_bob; SaveProcesses []] db_loaded.

Example scenario_vacancies :
  p_vacancy <$> processes db_loaded = [1; 0]
  ∧ p_vacancy <$> processes db_ann = [0; 0]
  ∧ employees db_ann !! 1 = Some ann
  ∧ processes db_replaced = [].
Proof. vm_compute. done. Qed.

(** The scenario of section 8 of the specification: two slots, three
    employees. *)
Example scenario_two_slots :
  let db0 := run [SaveProcesses [MatchingEngine.mkProcess "S" "Sales" "Good" 2]]
                 init_db in
  let r1 := add_employee "E1" "e1@x.com" "Sales" "Good" (Some "S") db0 in
  let r2 := add_employee "E2" "e2@x.com" "Sales" "Good" (Some "S") r1.1 in
  let r3 := add_employee "E3" "e3@x.com" "Sales" "Good" (Some "S") r2.1 in
  p_vacancy <$> processes r1.1 = [1]
  ∧ p_vacancy <$> processes r2.1 = [0]
  ∧ r3 = (r2.1, Failed (NoVacancy (Some "S"))).
Proof. vm_compute. done. Qed.

Lemma vacancy_never_negative_witness :
  vacancies_nonneg
    (run [add_ann; AdjustVacancy "Q" (-5); DeleteEmployee 1;
          UpdateEmployee 1 "Ann" "ann@x.com" "Sales" "Good" (Some "Q")]
         db_loaded).
Proof.
  apply vacancy_never_negative.
  - apply (bool_decide_unpack _). vm_compute. exact I.
  - apply (bool_decide_unpack _). vm_compute. exact I.
Defined.

Lemma update_employee_rejected_edit_is_atomic_witness :
  ∃ e,
    update_employee 1 "Ann" "ann@x.com" "Sales" "Good" (Some "Q") db_ann
    = (db_ann, Failed e)
    ∧ (e = EmailExistsOther ∨ e = EmployeeNotFound
       ∨ (select_process (Some "Q") db_ann = None ∧ e = ProcessNotFound (Some "Q"))
       ∨ (is_Some (select_process (Some "Q") db_ann) ∧ e = NoVacancy (Some "Q"))).
Proof.
  apply update_employee_rejected_edit_is_atomic.
  - reflexivity.
  - intros current Hcurrent. vm_compute in Hcurrent.
    injection Hcurrent as <-. discriminate.
  - vm_compute. discriminate.
Defined.

(** C4 fails as stated: the edit of an absent id with an address in use is
    refused as a duplicate, not as an unknown employee. *)
Lemma update_employee_absent_id_reports_duplicate :
  ¬ (∀ employee_id name email potential communication process_name db,
       employees db !! employee_id = None →
       (update_employee employee_id name email potential communication
                        process_name db).2 = Failed EmployeeNotFound).
Proof.
  intros Hclaim.
  specialize (Hclaim 7 "Eve" "Ann@X.com" "Sales" "Good" None db_ann eq_refl).
  vm_compute in Hclaim. discriminate.
Qed.

Lemma update_employee_absent_id_witness :
  update_employee 7 "Eve" "Ann@X.com" "Sales" "Good" None db_ann
  = (db_ann, Failed EmailExistsOther)
  ∧ update_employee 7 "Eve" "eve@x.com" "Sales" "Good" None db_ann
    = (db_ann, Failed EmployeeNotFound).
Proof.
  split.
  - apply (update_employee_absent_id 7 "Eve" "Ann@X.com"); [reflexivity|].
    exists 1, ann. split; reflexivity.
  - apply (update_employee_absent_id 7 "Eve" "eve@x.com"); [reflexivity|].
    intros (i & e & Hi & Heq).
    assert (count_email (normalize "eve@x.com") db_ann = 0%nat) as Hcount
      by (vm_compute; reflexivity).
    exact (count_email_zero _ _ Hcount i e Hi Heq).
Defined.

(** C10 fails as stated: with the address of another employee the edit is
    refused although the process question does not arise. *)
Lemma update_employee_same_missing_process_can_fail :
  ¬ (∀ employee_id name email potential communication process_name db current,
       employees db !! employee_id = Some current →
       e_process_name current = process_name →
       select_process process_name db = None →
       succeeded (update_employee employee_id name email potential
                                  communication process_name db).2 = true).
Proof.
  intros Hclaim.
  specialize (Hclaim 1 "Ann" "Bob@X.com" "Sales" "Good" (Some "P") db_replaced
                ann eq_refl eq_refl eq_refl).
  vm_compute in Hclaim. discriminate.
Qed.

Lemma update_employee_same_missing_process_witness :
  let result := update_employee 1 "Ann B." "Ann.B@X.com" "Sales" "Good"
                                (Some "P") db_replaced in
  processes result.1 = processes db_replaced
  ∧ result.2 ≠ Failed (ProcessNotFound (Some "P"))
  ∧ succeeded result.2 = true
  ∧ employees result.1
    = <[1 := mkEmployeeRow "Ann B." "ann.b@x.com" "Sales" "Good" None (Some "P")]>
        (employees db_replaced).
Proof.
  destruct (update_employee_same_missing_process 1 "Ann B." "Ann.B@X.com"
              "Sales" "Good" (Some "P") db_replaced ann eq_refl eq_refl eq_refl)
    as (Hrows & Hnot & Hok).
  split; [exact Hrows|]. split; [exact Hnot|].
  apply Hok. vm_compute. reflexivity.
Defined.





(** Property P7 of the specification. *)
Lemma emails_stay_unique_witness :
  let db := run [AddEmployee "Foo" "foo@x.com" "Sales" "Good" None] init_db in
  add_employee "Foo2" "Foo@X.com" "Sales" "Good" None db = (db, Failed EmailExists).
Proof.
  apply (proj1 (proj2 (emails_stay_unique
                         [AddEmployee "Foo" "foo@x.com" "Sales" "Good" None]))).
  exists 1, (mkEmployeeRow "Foo" "foo@x.com" "Sales" "Good" None None).
  split; reflexivity.
Defined.

Lemma slots_are_conserved_witness :
  let cs := [add_ann; add_bob;
             AddEmployee "Cy" "cy@x.com" "Sales" "Good" (Some "P");
             UpdateEmployee 2 "Bob" "bob@x.com" "Support" "Good" (Some "Q");
             UpdateEmployee 1 "Ann" "ann@x.com" "Sales" "Good" None;
             AddEmployee "Cy" "cy@x.com" "Sales" "Good" (Some "P")] in
  (∃ p, processes (run cs db_loaded) !! 0%nat = Some p
        ∧ p_process_name p = "P"
        ∧ Z.of_nat (holders "P" (run cs db_loaded)) = 1 - p_vacancy p)
  ∧ (∃ p', processes (call (DeleteEmployee 3) (run cs db_loaded)) !! 0%nat
           = Some p'
           ∧ p_vacancy p' = 1
           ∧ Z.of_nat (holders "P" (call (DeleteEmployee 3) (run cs db_loaded)))
             = 0).
Proof.
  cbv zeta.
  destruct (slots_are_conserved
              [add_ann; add_bob;
               AddEmployee "Cy" "cy@x.com" "Sales" "Good" (Some "P");
               UpdateEmployee 2 "Bob" "bob@x.com" "Support" "Good" (Some "Q");
               UpdateEmployee 1 "Ann" "ann@x.com" "Sales" "Good" None;
               AddEmployee "Cy" "cy@x.com" "Sales" "Good" (Some "P")]
              db_loaded) as [Hbalance Hstep].
  - apply (bool_decide_unpack _). vm_compute. exact I.
  - apply (bool_decide_unpack _). vm_compute. exact I.
  - apply (bool_decide_unpack _). vm_compute. exact I.
  - split.
    + destruct (Hbalance 0%nat (mkProcessRow 1 "P" "Sales" "Good" 1) eq_refl)
        as (p & Hp & Hname & _ & _ & Hcount).
      exists p. split; [exact Hp|]. split; [exact Hname|].
      apply Hcount. vm_compute. reflexivity.
    + destruct (Hstep (DeleteEmployee 3) eq_refl eq_refl
                      0%nat (mkProcessRow 1 "P" "Sales" "Good" 0) eq_refl)
        as (p' & Hp' & _ & Hvac & Hholders).
      exists p'. split; [exact Hp'|]. split; [exact Hvac|exact Hholders].
Defined.

End LedgerFacts.

(** * Further properties *)

(** ** The matching engine: the two functions together *)

Module EngineExtras.
Import MatchingEngine EngineFacts.

Lemma score_range potential communication p :
  partial_match potential communication p →
  1 ≤ score potential communication p ≤ 3.
Proof.
  intros [[Hp|Hc] _]; unfold score; repeat case_bool_decide; try done; lia.
Qed.

Lemma score_exact potential communication p :
  0 < Vacancy p →
  score potential communication p = 3 ↔ exact_match potential communication p.
Proof.
  intros Hv. unfold score, exact_match.
  repeat case_bool_decide; split; try lia; try tauto.
Qed.

Lemma score_potential potential communication p :
  0 < Vacancy p →
  2 ≤ score potential communication p ↔ potential_match potential p.
Proof.
  intros Hv. unfold score, potential_match.
  repeat case_bool_decide; split; try lia; try tauto.
Qed.

Section Together.
Context `{SortValues}.

(** The frame [find_matching_process] sorts. *)
Lemma find_matching_process_head data potential communication :
  find_matching_process data potential communication
  = head (sort_values by_vacancy_desc
            (match filter (exact_match potential communication) data with
             | [] => filter (potential_match potential) data
             | matching => matching
             end)).
Proof.
  unfold find_matching_process.
  change (λ p, Potential p = potential ∧ Communication p = communication
               ∧ 0 < Vacancy p) with (exact_match potential communication).
  change (λ p, Potential p = potential ∧ 0 < Vacancy p)
    with (potential_match potential).
  destruct (filter (exact_match potential communication) data);
    by destruct (sort_values by_vacancy_desc _).
Qed.

Lemma suggestions_scored data potential communication :
  get_process_suggestions data potential communication
  = sort_values by_relevance_vacancy_desc
      ((λ p, mkSuggestion p (score potential communication p))
         <$> filter (partial_match potential communication) data).
Proof.
  unfold get_process_suggestions.
  change (λ p, (Potential p = potential ∨ Communication p = communication)
               ∧ 0 < Vacancy p) with (partial_match potential communication).
  by rewrite relevance_passes.
Qed.

Lemma suggestion_elem data potential communication s :
  s ∈ get_process_suggestions data potential communication ↔
  ∃ p, s = mkSuggestion p (score potential communication p)
       ∧ p ∈ data ∧ partial_match potential communication p.
Proof.
  rewrite suggestions_scored, sort_values_perm, list_elem_of_fmap.
  split; intros (p & -> & Hp); exists p; (split; [done|]).
  - apply list_elem_of_filter in Hp as [? ?]. done.
  - destruct Hp as [? ?]. by apply list_elem_of_filter.
Qed.

(** The first suggestion comes before every suggestion. *)
Lemma suggestions_head_first data potential communication s rest t :
  get_process_suggestions data potential communication = s :: rest →
  t ∈ s :: rest →
  relevance t < relevance s
  ∨ (relevance s = relevance t ∧ Vacancy (row t) ≤ Vacancy (row s)).
Proof.
  intros Hresult Ht. rewrite suggestions_scored in Hresult.
  pose proof (sort_values_sorted _ by_relevance_vacancy_desc
                ((λ p, mkSuggestion p (score potential communication p))
                   <$> filter (partial_match potential communication) data)
                by_relevance_vacancy_desc_total
                by_relevance_vacancy_desc_trans) as Hsorted.
  rewrite Hresult in Hsorted. apply StronglySorted_inv in Hsorted as [_ Hall].
  apply elem_of_cons in Ht as [->|Ht]; [right; split; [done|lia]|].
  rewrite Forall_forall in Hall. apply Hall in Ht.
  by apply by_relevance_vacancy_desc_iff in Ht.
Qed.

(** X1: the process [find_matching_process] picks has the relevance and the
    vacancy of the first row [get_process_suggestions] returns for the same
    frame and skills, and that relevance is at least 2; when it picks
    nothing, every suggestion matches on communication alone (relevance 1). *)
Theorem best_match_heads_suggestions
    (data : list Process) (potential communication : string) :
  match find_matching_process data potential communication with
  | Some best =>
      ∃ s rest,
        get_process_suggestions data potential communication = s :: rest
        ∧ relevance s = score potential communication best
        ∧ Vacancy (row s) = Vacancy best
        ∧ 2 ≤ relevance s
  | None =>
      ∀ s, s ∈ get_process_suggestions data potential communication →
           relevance s = 1
  end.
Proof.
  rewrite find_matching_process_head.
  pose proof (sorted_head_max
                (match filter (exact_match potential communication) data with
                 | [] => filter (potential_match potential) data
                 | matching => matching
                 end)) as Hhead.
  destruct (sort_values by_vacancy_desc _) as [|best sorted]; simpl.
  - (* nothing matches the potential *)
    intros s (p & -> & Hp & Hpartial)%suggestion_elem. simpl.
    assert (filter (potential_match potential) data = []) as Hnone
      by (by destruct (filter (exact_match potential communication) data)).
    pose proof (score_range _ _ _ Hpartial) as Hrange.
    destruct (decide (2 ≤ score potential communication p)) as [Hge|]; [|lia].
    apply score_potential in Hge; [|by destruct Hpartial].
    by destruct (filter_nil_none _ _ Hnone p Hp).
  - destruct Hhead as [Hin Hmax].
    destruct (filter (exact_match potential communication) data)
      as [|x exact] eqn:Hexact.
    + (* potential-only fallback *)
      apply list_elem_of_filter in Hin as [Hbest Hdata].
      assert (partial_match potential communication best) as Hpartial
        by (destruct Hbest; split; [by left|done]).
      assert (mkSuggestion best (score potential communication best)
              ∈ get_process_suggestions data potential communication) as Hsugg
        by (apply suggestion_elem; eauto).
      destruct (get_process_suggestions data potential communication)
        as [|s rest] eqn:Hresult; [by apply not_elem_of_nil in Hsugg|].
      pose proof (suggestions_head_first _ _ _ _ _ _ Hresult Hsugg) as Hfirst.
      assert (s ∈ get_process_suggestions data potential communication) as Hs
        by (rewrite Hresult; apply list_elem_of_here).
      apply suggestion_elem in Hs as (q & -> & Hq & Hqpartial).
      simpl in *. exists (mkSuggestion q (score potential communication q)), rest.
      split; [done|]. simpl.
      pose proof (proj2 (score_potential potential communication best
                           (proj2 Hbest)) Hbest) as Hbest2.
      assert (score potential communication q ≠ 3) as Hq3.
      { intros Heq. apply score_exact in Heq; [|by destruct Hqpartial].
        by destruct (filter_nil_none _ _ Hexact q Hq). }
      assert (score potential communication best ≠ 3) as Hb3.
      { intros Heq. apply score_exact in Heq; [|by destruct Hbest].
        by destruct (filter_nil_none _ _ Hexact best Hdata). }
      pose proof (score_range _ _ _ Hqpartial) as Hqrange.
      pose proof (score_range _ _ _ Hpartial) as Hbrange.
      assert (score potential communication q = 2) as Hq2 by lia.
      assert (potential_match potential q) as Hqpot
        by (apply (score_potential potential communication);
            [by destruct Hqpartial|lia]).
      assert (Vacancy q ≤ Vacancy best) as Hle
        by (apply Hmax; by apply list_elem_of_filter).
      lia.
    + (* exact matches *)
      rewrite <- Hexact in Hin, Hmax.
      apply list_elem_of_filter in Hin as [Hbest Hdata].
      assert (partial_match potential communication best) as Hpartial
        by (destruct Hbest as (? & ? & ?); split; [by left|done]).
      assert (mkSuggestion best (score potential communication best)
              ∈ get_process_suggestions data potential communication) as Hsugg
        by (apply suggestion_elem; eauto).
      destruct (get_process_suggestions data potential communication)
        as [|s rest] eqn:Hresult; [by apply not_elem_of_nil in Hsugg|].
      pose proof (suggestions_head_first _ _ _ _ _ _ Hresult Hsugg) as Hfirst.
      assert (s ∈ get_process_suggestions data potential communication) as Hs
        by (rewrite Hresult; apply list_elem_of_here).
      apply suggestion_elem in Hs as (q & -> & Hq & Hqpartial).
      simpl in *. exists (mkSuggestion q (score potential communication q)), rest.
      split; [done|]. simpl.
      assert (score potential communication best = 3) as Hb3
        by (apply score_exact; [by destruct Hbest as (? & ? & ?)|done]).
      pose proof (score_range _ _ _ Hqpartial) as Hqrange.
      assert (score potential communication q = 3) as Hq3 by lia.
      assert (exact_match potential communication q) as Hqexact
        by (apply score_exact; [by destruct Hqpartial|done]).
      assert (Vacancy q ≤ Vacancy best) as Hle
        by (apply Hmax; by apply list_elem_of_filter).
      lia.
Qed.

(** X2: processes without a vacancy are invisible to the engine: dropping
    them from the frame changes the result of neither function. *)
Theorem engine_ignores_full_processes
    (data : list Process) (potential communication : string) :
  find_matching_process (filter (λ p, 0 < Vacancy p) data) potential communication
  = find_matching_process data potential communication
  ∧ get_process_suggestions (filter (λ p, 0 < Vacancy p) data)
                            potential communication
    = get_process_suggestions data potential communication.
Proof.
  split.
  - rewrite !find_matching_process_head.
    rewrite !(list_filter_filter_l _ (λ p, 0 < Vacancy p)); [done| |].
    + by intros p [_ ?].
    + by intros p (_ & _ & ?).
  - rewrite !suggestions_scored.
    rewrite (list_filter_filter_l _ (λ p, 0 < Vacancy p)); [done|].
    by intros p [_ ?].
Qed.

End Together.

Lemma best_match_heads_suggestions_witness :
  ∃ s rest,
    get_process_suggestions (H := pandas_stable) catalog_P5 "Sales" "Good"
    = s :: rest
    ∧ relevance s = 3 ∧ Vacancy (row s) = 1.
Proof.
  pose proof (best_match_heads_suggestions (H := pandas_stable)
                catalog_P5 "Sales" "Good") as Hspec.
  rewrite find_matching_process_P5_exact in Hspec.
  destruct Hspec as (s & rest & Hresult & Hrel & Hvac & _).
  exists s, rest. split; [exact Hresult|]. split; [exact Hrel|exact Hvac].
Defined.

End EngineExtras.

(** ** The database: queries and the ledger together *)

Module LedgerExtras.
Import Text TextFacts Database LedgerFacts.

(** The rows the SQL query of [get_process_suggestions] selects. *)
Definition offered (potential communication : string) (p : ProcessRow) : Prop :=
  p_potential p = potential ∧ p_communication p = communication ∧ 0 < p_vacancy p.

#[global] Instance offered_dec potential communication p :
  Decision (offered potential communication p).
Proof. unfold offered. apply _. Defined.


Lemma filter_to_frame_row potential communication (rows : list ProcessRow) :
  filter (EngineFacts.exact_match potential communication) (to_frame_row <$> rows)
  = to_frame_row <$> filter (offered potential communication) rows.
Proof.
  induction rows as [|p rows IH]; [done|].
  rewrite fmap_cons, !filter_cons, IH.
  destruct (decide (offered potential communication p)) as [Hp|Hp].
  - by rewrite decide_True by exact Hp.
  - by rewrite decide_False by exact Hp.
Qed.

Section Queries.
Context `{OrderBy} `{MatchingEngine.SortValues}.

Lemma get_process_suggestions_offered potential communication db :
  get_process_suggestions potential communication db
  = order_by MatchingEngine.by_vacancy_desc
      (to_frame_row <$> filter (offered potential communication) (processes db)).
Proof. reflexivity. Qed.

(** The first row [ORDER BY vacancy DESC] yields is one of the rows and no
    row has a larger vacancy. *)
Lemma order_by_head_max (l : list MatchingEngine.Process) r rest :
  order_by MatchingEngine.by_vacancy_desc l = r :: rest →
  r ∈ l ∧ ∀ q, q ∈ l → MatchingEngine.Vacancy q ≤ MatchingEngine.Vacancy r.
Proof.
  intros Hhead.
  pose proof (order_by_perm _ MatchingEngine.by_vacancy_desc l) as Hperm.
  pose proof (order_by_sorted _ MatchingEngine.by_vacancy_desc l
                EngineFacts.by_vacancy_desc_total
                EngineFacts.by_vacancy_desc_trans) as Hsorted.
  rewrite Hhead in Hperm, Hsorted. split.
  - rewrite <- Hperm. apply list_elem_of_here.
  - intros q Hq. rewrite <- Hperm in Hq.
    apply StronglySorted_inv in Hsorted as [_ Hall].
    apply elem_of_cons in Hq as [->|Hq]; [lia|].
    rewrite Forall_forall in Hall. apply Hall in Hq.
    unfold MatchingEngine.by_vacancy_desc in Hq. by apply Z.leb_le in Hq.
Qed.

(** X3: the query [database.get_process_suggestions] returns exactly the
    processes that match both skills and still have a vacancy, the fullest
    vacancy first. *)
Theorem query_returns_open_exact_matches
    (potential communication : string) (db : DB) :
  let result := get_process_suggestions potential communication db in
  result ≡ₚ to_frame_row <$> filter (offered potential communication) (processes db)
  ∧ StronglySorted (λ a b, MatchingEngine.Vacancy b ≤ MatchingEngine.Vacancy a)
                   result
  ∧ ∀ r, r ∈ result → EngineFacts.exact_match potential communication r.
Proof.
  simpl. rewrite get_process_suggestions_offered.
  split; [apply order_by_perm|]. split.
  - eapply EngineFacts.StronglySorted_weaken;
      [|apply order_by_sorted;
        [apply EngineFacts.by_vacancy_desc_total
        |apply EngineFacts.by_vacancy_desc_trans]].
    intros a b. unfold MatchingEngine.by_vacancy_desc. apply Z.leb_le.
  - intros r Hr. rewrite order_by_perm in Hr.
    apply list_elem_of_fmap in Hr as (p & -> & Hp).
    apply list_elem_of_filter in Hp as [Hp _]. exact Hp.
Qed.

(** X4: when the query offers anything, [find_matching_process] on the
    frame [load_processes_from_db] returns picks one of the offered
    processes, and it has the vacancy of the query's first row.  Which of
    several processes with that vacancy either side puts first is for
    SQLite's [ORDER BY] and for pandas' [sort_values] to decide, each on its
    own: the two rows need not be the same. *)
Theorem query_head_matches_best_vacancy
    (potential communication : string) (db : DB)
    (r : MatchingEngine.Process) (rest : list MatchingEngine.Process) :
  get_process_suggestions potential communication db = r :: rest →
  ∃ data best,
    load_processes_from_db db = Some data
    ∧ MatchingEngine.find_matching_process data potential communication
      = Some best
    ∧ MatchingEngine.Vacancy best = MatchingEngine.Vacancy r
    ∧ best ∈ get_process_suggestions potential communication db.
Proof.
  rewrite get_process_suggestions_offered. intros Hresult.
  destruct (order_by_head_max _ _ _ Hresult) as [Hr Hmax].
  pose proof (EngineFacts.sorted_head_max
                (to_frame_row
                   <$> filter (offered potential communication) (processes db)))
    as Hbest.
  destruct (MatchingEngine.sort_values MatchingEngine.by_vacancy_desc
              (to_frame_row
                 <$> filter (offered potential communication) (processes db)))
    as [|best others] eqn:Hsorted.
  { rewrite Hbest in Hr. by apply not_elem_of_nil in Hr. }
  destruct Hbest as [Hin Hbest].
  exists (to_frame_row <$> processes db), best. split; [|split; [|split]].
  - unfold load_processes_from_db.
    destruct (processes db) as [|p rows] eqn:Hrows; [|reflexivity].
    by apply not_elem_of_nil in Hr.
  - rewrite EngineExtras.find_matching_process_head, filter_to_frame_row.
    destruct (to_frame_row
                <$> filter (offered potential communication) (processes db))
      as [|m matching] eqn:Hm; [by apply not_elem_of_nil in Hr|].
    by rewrite Hsorted.
  - apply Z.le_antisymm; [by apply Hmax|by apply Hbest].
  - by rewrite order_by_perm.
Qed.


End Queries.

(** *** What the ledger functions can return *)

(** X6: [add_employee] succeeds exactly when the address is free and the
    named process, if one is given, exists with a vacancy; it fails only as a
    duplicate address, an unknown process or a full process (never with the
    "failed to update" or database error of its other branches), and a
    failed call leaves the database as it was. *)
Theorem add_employee_outcome
    (name email potential communication : string)
    (process_name : option string) (db : DB) :
  let result := add_employee name email potential communication process_name db in
  match result.2 with
  | Done _ =>
      count_email (normalize email) db = 0%nat
      ∧ (truthy process_name = true →
         ∃ found, select_process process_name db = Some found
                  ∧ 0 < p_vacancy found)
  | Failed e =>
      result.1 = db
      ∧ ((e = EmailExists ∧ (0 < count_email (normalize email) db)%nat)
         ∨ (e = ProcessNotFound process_name ∧ truthy process_name = true
            ∧ count_email (normalize email) db = 0%nat
            ∧ select_process process_name db = None)
         ∨ (e = NoVacancy process_name ∧ truthy process_name = true
            ∧ count_email (normalize email) db = 0%nat
            ∧ ∃ found, select_process process_name db = Some found
                       ∧ p_vacancy found ≤ 0))
  end.
Proof.
  simpl. rewrite add_employee_unfold. simpl.
  destruct (Nat.ltb_spec 0 (count_email (normalize email) db)) as [Hused|Hfree].
  { simpl. split; [done|]. by left. }
  assert (count_email (normalize email) db = 0%nat) as Hzero by lia.
  destruct (truthy process_name) eqn:Htruthy.
  - destruct (select_process process_name db) as [found|] eqn:Hfound.
    + destruct (Z.leb_spec (p_vacancy found) 0); simpl.
      * split; [done|]. right. right. eauto 6.
      * split; [done|]. eauto.
    + simpl. split; [done|]. right. left. done.
  - simpl. split; [done|]. done.
Qed.

(** X7: [update_employee] fails only as a duplicate address, an unknown
    employee, an unknown process or a full process (never with the
    "no changes made", "failed to update" or database error of its other
    branches), always leaving the database as it was; a successful call
    rewrites the row of that employee and of no other. *)
Theorem update_employee_outcome
    (employee_id : Z) (name email potential communication : string)
    (process_name : option string) (db : DB) :
  let result := update_employee employee_id name email potential communication
                                process_name db in
  match result.2 with
  | Done _ =>
      is_Some (employees db !! employee_id)
      ∧ (∃ process_id,
           employees result.1
           = <[employee_id := mkEmployeeRow name (normalize email) potential
                                communication process_id process_name]>
               (employees db))
  | Failed e =>
      result.1 = db
      ∧ (e = EmailExistsOther ∨ e = EmployeeNotFound
         ∨ e = ProcessNotFound process_name ∨ e = NoVacancy process_name)
  end.
Proof.
  simpl. rewrite update_employee_unfold. simpl.
  destruct (decide (select_other_email (normalize email) employee_id db ≠ ∅)).
  { simpl. split; [done|]. by left. }
  destruct (employees db !! employee_id) as [current|] eqn:Hcurrent.
  2: { simpl. split; [done|]. right. by left. }
  destruct (decide (e_process_name current ≠ process_name)).
  - destruct (truthy process_name).
    + destruct (head (filter (named process_name) _)) as [found|].
      * destruct (p_vacancy found <=? 0); simpl.
        -- split; [done|]. right. right. by right.
        -- split; [done|]. eauto.
      * simpl. split; [done|]. right. right. by left.
    + simpl. split; [done|]. eauto.
  - simpl. split; [done|]. eauto.
Qed.

(** X8: [delete_employee] on an id that is not stored fails as an unknown
    employee and changes nothing; in particular a second delete of the same
    id always does, whatever the first one did. *)
Theorem delete_employee_twice (employee_id : Z) (db : DB) :
  (employees db !! employee_id = None →
   delete_employee employee_id db = (db, Failed EmployeeNotFound))
  ∧ delete_employee employee_id (delete_employee employee_id db).1
    = ((delete_employee employee_id db).1, Failed EmployeeNotFound).
Proof.
  split.
  - intros Habsent. by rewrite delete_employee_unfold, Habsent.
  - rewrite (delete_employee_unfold employee_id db).
    destruct (employees db !! employee_id) as [current|] eqn:Hcurrent; simpl.
    + rewrite delete_employee_unfold. simpl. by rewrite lookup_delete_eq.
    + by rewrite delete_employee_unfold, Hcurrent.
Qed.

Lemma release_undoes_acquire process_name rows found :
  NoDup (p_process_name <$> rows) →
  truthy process_name = true →
  head (filter (named process_name) rows) = Some found →
  0 < p_vacancy found →
  released process_name (update_rows minus_one_floor process_name rows) = rows.
Proof.
  intros Hnodup Htruthy Hfound Hvac. apply list_eq. intros k.
  rewrite released_lookup, update_rows_lookup.
  destruct (rows !! k) as [p|] eqn:Hk; [|done]. simpl. f_equal.
  destruct (decide (named process_name p)) as [Hn|Hn].
  - rewrite (select_unique process_name rows k p) in Hfound by done.
    injection Hfound as <-.
    rewrite decide_True by done.
    unfold minus_one_floor. destruct (Z.ltb_spec 0 (p_vacancy p)); [|lia].
    destruct p. unfold set_vacancy. simpl. f_equal. lia.
  - rewrite decide_False; [done|]. by intros [_ ?].
Qed.

(** X9: with unique process names, deleting the employee a successful
    [add_employee] has just created gives the slot back: both tables are as
    before the two calls (only the identifier counter has moved on). *)
Theorem add_then_delete_restores
    (name email potential communication : string)
    (process_name : option string) (db db1 : DB) (message : string) :
  NoDup (p_process_name <$> processes db) →
  add_employee name email potential communication process_name db
  = (db1, Done message) →
  let result := delete_employee (employees_seq db1) db1 in
  succeeded result.2 = true
  ∧ processes result.1 = processes db
  ∧ employees result.1 = employees db.
Proof.
  intros Hnodup. rewrite add_employee_unfold. simpl.
  destruct (0 <? count_email (normalize email) db)%nat; [done|].
  destruct (truthy process_name) eqn:Htruthy.
  - unfold select_process.
    destruct (head (filter (named process_name) (processes db)))
      as [found|] eqn:Hfound; [|done].
    destruct (Z.leb_spec (p_vacancy found) 0); [done|].
    intros [= <- _]. rewrite delete_employee_unfold. simpl.
    rewrite lookup_insert_eq. simpl. split; [done|]. split.
    + by eapply release_undoes_acquire.
    + apply delete_insert_id, fresh_id.
  - intros [= <- _]. rewrite delete_employee_unfold. simpl.
    rewrite lookup_insert_eq. simpl. split; [done|]. split.
    + unfold released. by rewrite Htruthy.
    + apply delete_insert_id, fresh_id.
Qed.

(** X10: an edit that keeps the employee's process touches no vacancy and
    cannot fail for the process: it succeeds whenever the address is not
    that of another employee, even if the process is full, and records the
    id of the first process row of that name, if there is one. *)
Theorem update_employee_same_process_keeps_vacancies
    (employee_id : Z) (name email potential communication : string)
    (db : DB) (current : EmployeeRow) :
  employees db !! employee_id = Some current →
  select_other_email (normalize email) employee_id db = ∅ →
  let process_name := e_process_name current in
  let result := update_employee employee_id name email potential communication
                                process_name db in
  succeeded result.2 = true
  ∧ processes result.1 = processes db
  ∧ employees result.1 !! employee_id
    = Some (mkEmployeeRow name (normalize email) potential communication
              (if truthy process_name
               then p_id <$> select_process process_name db else None)
              process_name).
Proof.
  intros Hcurrent Hother. simpl. rewrite update_employee_unfold. simpl.
  rewrite Hcurrent. rewrite decide_False by (intros Hne; by apply Hne).
  rewrite decide_False by (intros Hne; by apply Hne). simpl.
  split; [done|]. split; [done|]. apply lookup_insert_eq.
Qed.

(** *** Looking an employee up by address *)

Lemma first_row_singleton i (e : EmployeeRow) : first_row {[i := e]} = Some (i, e).
Proof. unfold first_row. by rewrite map_to_list_singleton. Qed.

Lemma foldr_first_elem (l : list (Z * EmployeeRow)) kv :
  foldr (λ kv found,
           match found with
           | Some kv' => if kv.1 <? kv'.1 then Some kv else found
           | None => Some kv
           end) None l = Some kv →
  kv ∈ l.
Proof.
  revert kv. induction l as [|x l IH]; intros kv; simpl; [done|].
  destruct (foldr _ None l) as [kv'|].
  - destruct (x.1 <? kv'.1).
    + intros [= <-]. apply list_elem_of_here.
    + intros [= <-]. apply list_elem_of_further. by apply IH.
  - intros [= <-]. apply list_elem_of_here.
Qed.

Lemma first_row_Some (m : gmap Z EmployeeRow) i e :
  first_row m = Some (i, e) → m !! i = Some e.
Proof.
  intros Hfirst. apply foldr_first_elem in Hfirst.
  by apply elem_of_map_to_list in Hfirst.
Qed.

Lemma first_row_only (m : gmap Z EmployeeRow) i e :
  m !! i = Some e → (∀ j e', m !! j = Some e' → j = i) →
  first_row m = Some (i, e).
Proof.
  intros Hi Honly. assert (m = {[i := e]}) as ->; [|apply first_row_singleton].
  apply map_eq. intros j. destruct (decide (j = i)) as [->|Hne].
  - by rewrite lookup_singleton_eq.
  - rewrite lookup_singleton_ne by done.
    destruct (m !! j) as [e'|] eqn:Hj; [|done]. by destruct (Hne (Honly j e' Hj)).
Qed.

(** X11: an employee just added is found under every spelling of the
    address that normalises to the same text (other case, surrounding
    blanks), with the identifier the insert assigned. *)
Theorem added_employee_is_found
    (name email potential communication : string)
    (process_name : option string) (db db1 : DB) (message email' : string) :
  add_employee name email potential communication process_name db
  = (db1, Done message) →
  normalize email' = normalize email →
  ∃ r, find_employee_by_email email' db1 = Some (employees_seq db1, r)
       ∧ e_name r = name ∧ e_email r = normalize email
       ∧ e_process_name r = process_name.
Proof.
  intros Hadd Hsame.
  assert (∃ process_id rows,
            count_email (normalize email) db = 0%nat
            ∧ db1 = added (mkEmployeeRow name (normalize email) potential
                             communication process_id process_name) rows db)
    as (process_id & rows & Hfree & ->).
  { rewrite add_employee_unfold in Hadd. simpl in Hadd.
    destruct (Nat.ltb_spec 0 (count_email (normalize email) db)); [done|].
    assert (count_email (normalize email) db = 0%nat) by lia.
    repeat case_match; simplify_eq; eauto. }
  exists (mkEmployeeRow name (normalize email) potential communication
            process_id process_name).
  split; [|done].
  unfold find_employee_by_email. rewrite Hsame. simpl.
  apply first_row_only.
  - apply map_lookup_filter_Some. by rewrite lookup_insert_eq.
  - intros j e' [Hj Heq]%map_lookup_filter_Some. simpl in Heq.
    apply lookup_insert_Some in Hj as [[<- _]|[_ Hj]]; [done|].
    by destruct (count_email_zero _ _ Hfree j e' Hj).
Qed.

(** X12: in every database reached from the empty one,
    [find_employee_by_email] returns an employee exactly when that employee
    is stored under the normalised address, so it finds at most one. *)
Theorem find_employee_by_email_exact
    (cs : list Call) (email : string) (i : Z) (e : EmployeeRow) :
  let db := run cs init_db in
  find_employee_by_email email db = Some (i, e)
  ↔ employees db !! i = Some e ∧ e_email e = normalize email.
Proof.
  simpl. destruct (run_email_invariant cs init_db email_invariant_init)
    as [Hnorm Huniq].
  unfold find_employee_by_email. split.
  - intros Hfound%first_row_Some.
    apply map_lookup_filter_Some in Hfound as [Hi Heq]. simpl in Heq.
    split; [done|].
    rewrite <- (Hnorm i e Hi), !sql_lower_normalize in Heq.
    by rewrite <- (Hnorm i e Hi).
  - intros [Hi Heq]. apply first_row_only.
    + apply map_lookup_filter_Some. split; [done|]. simpl. by rewrite Heq.
    + intros j e' [Hj Hje]%map_lookup_filter_Some. simpl in Hje.
      apply (Huniq j i e' e Hj Hi).
      rewrite <- (Hnorm j e' Hj), !sql_lower_normalize in Hje.
      by rewrite Hje, Heq, normalize_idem.
Qed.

(** *** Identifiers *)

Definition ids_bounded (db : DB) : Prop :=
  ∀ i e, employees db !! i = Some e → i ≤ employees_seq db.

Lemma call_ids c db :
  ids_bounded db →
  ids_bounded (call c db) ∧ employees_seq db ≤ employees_seq (call c db).
Proof.
  intros Hb. destruct c; simpl.
  - rewrite update_process_vacancy_unfold.
    destruct (is_int64 change); [|simpl; split; [done|lia]].
    destruct (select_process _ db); simpl; (split; [done|lia]).
  - rewrite add_employee_unfold. simpl.
    repeat case_match; simpl; try (split; [done|lia]);
      (split; [|lia]; intros j ej; simpl;
       intros [[<- _]|[_ Hi]]%lookup_insert_Some; [lia|];
       apply Hb in Hi; lia).
  - rewrite update_employee_unfold. simpl.
    repeat case_match; simpl; try (split; [done|lia]);
      (split; [|lia]; intros j ej; simpl;
       intros [[<- _]|[_ Hi]]%lookup_insert_Some; [by eapply Hb|by eapply Hb]).
  - rewrite delete_employee_unfold.
    destruct (employees db !! employee_id) eqn:Hcur; simpl; (split; [|lia]);
      [|done].
    intros j ej. simpl. intros [_ Hi]%lookup_delete_Some. by eapply Hb.
  - unfold save_processes_to_db. destruct (insert_processes _ _ _).
    simpl. split; [done|lia].
Qed.

Lemma run_ids cs db :
  ids_bounded db →
  ids_bounded (run cs db) ∧ employees_seq db ≤ employees_seq (run cs db).
Proof.
  unfold run. revert db. induction cs as [|c cs IH]; intros db Hb; simpl.
  - split; [done|lia].
  - destruct (call_ids c db Hb) as [Hb1 Hle1].
    destruct (IH _ Hb1) as [Hb2 Hle2]. split; [done|lia].
Qed.

(** X13: identifiers are never handed out twice: the identifier a
    successful [add_employee] assigns is larger than every identifier that
    was stored at any earlier point of the history, deleted employees
    included. *)
Theorem employee_ids_never_reused
    (cs1 cs2 : list Call) (i : Z) (e : EmployeeRow)
    (name email potential communication : string)
    (process_name : option string) (db1 : DB) (message : string) :
  employees (run cs1 init_db) !! i = Some e →
  add_employee name email potential communication process_name
               (run (cs1 ++ cs2) init_db) = (db1, Done message) →
  i < employees_seq db1 ∧ is_Some (employees db1 !! employees_seq db1).
Proof.
  intros Hi Hadd.
  assert (ids_bounded init_db) as Hinit
    by (intros j ej; simpl; by rewrite lookup_empty).
  destruct (run_ids cs1 init_db Hinit) as [Hb1 _].
  assert (run (cs1 ++ cs2) init_db = run cs2 (run cs1 init_db)) as Happ
    by (unfold run; apply foldl_app).
  destruct (run_ids cs2 (run cs1 init_db) Hb1) as [_ Hle].
  rewrite Happ in Hadd. apply Hb1 in Hi.
  rewrite add_employee_unfold in Hadd. simpl in Hadd.
  repeat case_match; simplify_eq; simpl;
    (split; [lia|by rewrite lookup_insert_eq]).
Qed.

(** *** Replacing and reading the catalogue *)

Lemma insert_processes_rows data rows seq :
  to_frame_row <$> (insert_processes data rows seq).1
  = ((to_frame_row <$> rows) ++ data)%list.
Proof.
  revert rows seq. induction data as [|r data IH]; intros rows seq; simpl.
  - by rewrite app_nil_r.
  - rewrite IH, fmap_app, <- app_assoc. simpl. by destruct r.
Qed.

(** X14: what [save_processes_to_db] stores is what
    [load_processes_from_db] reads back, row for row and in order ([None]
    for an empty frame); the employees are not touched by the replacement. *)
Theorem save_then_load (data : list MatchingEngine.Process) (db : DB) :
  load_processes_from_db (save_processes_to_db data db)
  = match data with [] => None | _ => Some data end
  ∧ employees (save_processes_to_db data db) = employees db.
Proof.
  unfold save_processes_to_db, load_processes_from_db.
  pose proof (insert_processes_rows data [] (processes_seq db)) as Hrows.
  destruct (insert_processes data [] (processes_seq db)) as [rows seq].
  simpl in *. split; [|done].
  destruct rows as [|p rows]; destruct data as [|r data]; try done.
  by rewrite <- Hrows.
Qed.

(** *** Scenarios *)

(** SQLite sorting the rows in rowid order with a stable sort. *)
Definition rowid_order : OrderBy :=
  {| order_by := @EngineFacts.stable_sort;
     order_by_perm := EngineFacts.stable_sort_perm;
     order_by_sorted := EngineFacts.stable_sort_sorted |}.

(** A sorting kind that is not stable: of rows with equal keys the last
    comes first. *)
Definition pandas_unstable : MatchingEngine.SortValues :=
  {| MatchingEngine.sort_values :=
       λ A before l, EngineFacts.stable_sort before (reverse l);
     MatchingEngine.sort_values_perm := λ A before l,
       transitivity (EngineFacts.stable_sort_perm A before (reverse l))
                    (reverse_Permutation l);
     MatchingEngine.sort_values_sorted := λ A before l,
       EngineFacts.stable_sort_sorted A before (reverse l) |}.

(** Two processes tie on the largest vacancy. *)
Definition db_ties : DB :=
  run [SaveProcesses [MatchingEngine.mkProcess "A" "Sales" "Good" 1;
                      MatchingEngine.mkProcess "B" "Sales" "Good" 1;
                      MatchingEngine.mkProcess "C" "Sales" "Good" 2;
                      MatchingEngine.mkProcess "D" "Sales" "Good" 2]] init_db.

Lemma query_head_matches_best_vacancy_witness :
  ∃ data best,
    load_processes_from_db db_ties = Some data
    ∧ MatchingEngine.find_matching_process (H := pandas_unstable)
        data "Sales" "Good" = Some best
    ∧ MatchingEngine.Vacancy best = 2
    ∧ best ∈ get_process_suggestions (H := rowid_order) "Sales" "Good" db_ties.
Proof.
  apply (query_head_matches_best_vacancy (H := rowid_order)
           (H0 := pandas_unstable)
           "Sales" "Good" db_ties
           (MatchingEngine.mkProcess "C" "Sales" "Good" 2)
           [MatchingEngine.mkProcess "D" "Sales" "Good" 2;
            MatchingEngine.mkProcess "A" "Sales" "Good" 1;
            MatchingEngine.mkProcess "B" "Sales" "Good" 1]).
  vm_compute. reflexivity.
Defined.

(** On a tie the two sides may name different processes: the query puts [C]
    first, the engine picks [D]. *)
Example query_head_differs_on_tie :
  head (get_process_suggestions (H := rowid_order) "Sales" "Good" db_ties)
  = Some (MatchingEngine.mkProcess "C" "Sales" "Good" 2)
  ∧ MatchingEngine.find_matching_process (H := pandas_unstable)
      (default [] (load_processes_from_db db_ties)) "Sales" "Good"
    = Some (MatchingEngine.mkProcess "D" "Sales" "Good" 2).
Proof. split; vm_compute; reflexivity. Qed.


Lemma add_then_delete_restores_witness :
  let result := delete_employee 1 db_ann in
  succeeded result.2 = true
  ∧ processes result.1 = processes db_loaded
  ∧ employees result.1 = employees db_loaded.
Proof.
  apply (add_then_delete_restores "Ann" "ann@x.com" "Sales" "Good" (Some "P")
           db_loaded db_ann "Employee added successfully").
  - apply (bool_decide_unpack _). vm_compute. exact I.
  - vm_compute. reflexivity.
Defined.

Lemma update_employee_same_process_keeps_vacancies_witness :
  let result := update_employee 1 "Ann B." "ann.b@x.com" "Sales" "Good"
                                (Some "P") db_ann in
  succeeded result.2 = true
  ∧ processes result.1 = processes db_ann
  ∧ employees result.1 !! 1
    = Some (mkEmployeeRow "Ann B." "ann.b@x.com" "Sales" "Good" (Some 1) (Some "P")).
Proof.
  apply (update_employee_same_process_keeps_vacancies 1 "Ann B." "ann.b@x.com"
           "Sales" "Good" db_ann ann).
  - reflexivity.
  - vm_compute. reflexivity.
Defined.

Lemma added_employee_is_found_witness :
  ∃ r, find_employee_by_email "  ANN@X.com " db_ann = Some (1, r)
       ∧ e_name r = "Ann" ∧ e_email r = "ann@x.com"
       ∧ e_process_name r = Some "P".
Proof.
  apply (added_employee_is_found "Ann" "ann@x.com" "Sales" "Good" (Some "P")
           db_loaded db_ann "Employee added successfully" "  ANN@X.com ").
  - vm_compute. reflexivity.
  - reflexivity.
Defined.

Lemma employee_ids_never_reused_witness :
  1 < employees_seq (run [add_ann; DeleteEmployee 1; add_ann] db_loaded).
Proof.
  apply (employee_ids_never_reused
           [SaveProcesses catalog_PQ; add_ann] [DeleteEmployee 1] 1 ann
           "Ann" "ann@x.com" "Sales" "Good" (Some "P")
           (run [add_ann; DeleteEmployee 1; add_ann] db_loaded)
           "Employee added successfully").
  - reflexivity.
  - vm_compute. reflexivity.
Defined.





(** *** Adjusting a vacancy up and down *)

(** X20: on a catalogue of non-negative vacancies, raising the vacancy of a
    process by [d] and then lowering it by [d] restores every process row,
    provided [d] and every raised vacancy fit in 64 bits; the floor at 0
    does not bite. *)
Theorem adjust_up_then_down_restores (process_name : string) (d : Z) (db : DB) :
  0 ≤ d → d ≤ max_int64 →
  vacancies_nonneg db →
  (∀ p, p ∈ processes db → p_process_name p = process_name →
        p_vacancy p + d ≤ max_int64) →
  processes (update_process_vacancy process_name (- d)
               (update_process_vacancy process_name d db).1).1
  = processes db.
Proof.
  intros Hd Hmax Hnonneg Hroom.
  assert (is_int64 d = true) as Hup
    by (apply is_int64_spec; unfold min_int64, max_int64 in *; lia).
  assert (is_int64 (- d) = true) as Hdown
    by (apply is_int64_spec; unfold min_int64, max_int64 in *; lia).
  assert (∀ p, p ∈ processes db → named (Some process_name) p →
               (if - d <? 0 then add_floor (- d) else add_plain (- d))
                 ((if d <? 0 then add_floor d else add_plain d) (p_vacancy p))
               = p_vacancy p) as Hback.
  { intros p Hp Hn.
    assert (p_process_name p = process_name) as Hname
      by (unfold named in Hn; congruence).
    pose proof (Hroom p Hp Hname) as Hsum.
    unfold vacancies_nonneg in Hnonneg.
    rewrite Forall_forall in Hnonneg. apply Hnonneg in Hp.
    assert (is_int64 (p_vacancy p) = true) as Hv
      by (apply is_int64_spec; unfold min_int64, max_int64 in *; lia).
    rewrite (adjusted_expr d) by done.
    assert (adjusted d (p_vacancy p) = p_vacancy p + d) as ->
      by (unfold adjusted; rewrite decide_False by lia; done).
    rewrite adjusted_expr;
      [|done
       |apply is_int64_spec; unfold min_int64, max_int64 in *; lia
       |lia].
    unfold adjusted. case_decide; lia. }
  rewrite (update_process_vacancy_unfold process_name d db), Hup.
  destruct (select_process (Some process_name) db) as [found|] eqn:Hsel; simpl.
  - apply select_process_Some in Hsel as [Hin Hn].
    apply list_elem_of_lookup in Hin as [k Hk].
    rewrite update_process_vacancy_unfold, Hdown. simpl.
    destruct (select_process (Some process_name) _) as [found'|] eqn:Hsel'; simpl.
    + apply list_eq. intros j. rewrite !update_rows_lookup.
      destruct (processes db !! j) as [p|] eqn:Hj; [|done]. simpl. f_equal.
      destruct (decide (named (Some process_name) p)) as [Hp|Hp].
      * rewrite decide_True by done. simpl.
        rewrite (Hback p (list_elem_of_lookup_2 _ _ _ Hj) Hp).
        by destruct p.
      * by rewrite decide_False.
    + exfalso.
      pose proof (proj1 (select_process_None _ _) Hsel') as Hnone.
      simpl in Hnone.
      apply (Hnone (set_vacancy
                      ((if d <? 0 then add_floor d else add_plain d)
                         (p_vacancy found)) found)); [|done].
      apply (list_elem_of_lookup_2 _ k).
      rewrite update_rows_lookup, Hk. simpl. by rewrite decide_True.
  - rewrite update_process_vacancy_unfold, Hdown, Hsel. done.
Qed.

Lemma adjust_up_then_down_restores_witness :
  processes (update_process_vacancy "Q" (-4)
               (update_process_vacancy "Q" 4 db_loaded).1).1
  = processes db_loaded.
Proof.
  apply (adjust_up_then_down_restores "Q" 4 db_loaded).
  - lia.
  - unfold max_int64. lia.
  - apply (bool_decide_unpack _). vm_compute. exact I.
  - intros p Hp _.
    assert (Forall (λ p, p_vacancy p + 4 ≤ max_int64) (processes db_loaded))
      as Hall by (apply (bool_decide_unpack _); vm_compute; exact I).
    rewrite Forall_forall in Hall. by apply Hall.
Defined.

End LedgerExtras.

(** ** Normalising an address *)

Module TextExtras.
Import Text TextFacts.

(** X17: the normalisation of an address is canonical: normalising again,
    trimming first or lowercasing first changes nothing, and SQLite's
    [LOWER] leaves a normalised address as it is. *)
Theorem normalize_canonical (email : string) :
  normalize (normalize email) = normalize email
  ∧ normalize (strip email) = normalize email
  ∧ normalize (py_lower email) = normalize email
  ∧ sql_lower (normalize email) = normalize email.
Proof.
  split; [apply normalize_idem|]. split; [|split].
  - unfold normalize. by rewrite strip_idem.
  - unfold normalize. by rewrite strip_py_lower, py_lower_idem.
  - apply sql_lower_normalize.
Qed.

End TextExtras.

(** ** Validation of an uploaded catalogue *)

Module DataHandlerFacts.
Import Text TextFacts MatchingEngine DataHandler.

Lemma foldl_unique_elem (values seen : list string) (v : string) :
  v ∈ foldl (λ (seen : list string) v,
               if decide (v ∈ seen) then seen else (seen ++ [v])%list)
            seen values
  ↔ v ∈ seen ∨ v ∈ values.
Proof.
  revert seen. induction values as [|x values IH]; intros seen; simpl.
  - split; [by left|]. intros [?|Hv]; [done|]. by apply not_elem_of_nil in Hv.
  - rewrite IH. destruct (decide (x ∈ seen)) as [Hx|Hx].
    + rewrite elem_of_cons. split; [tauto|]. intros [?|[->|?]]; tauto.
    + rewrite elem_of_app, list_elem_of_singleton, elem_of_cons. tauto.
Qed.

Lemma foldl_unique_NoDup (values seen : list string) :
  NoDup seen →
  NoDup (foldl (λ (seen : list string) v,
                  if decide (v ∈ seen) then seen else (seen ++ [v])%list)
               seen values).
Proof.
  revert seen. induction values as [|x values IH]; intros seen Hseen; simpl;
    [done|].
  apply IH. destruct (decide (x ∈ seen)) as [Hx|Hx]; [done|].
  apply NoDup_app. split; [done|]. split; [|apply NoDup_singleton].
  intros y Hy ->%list_elem_of_singleton. done.
Qed.

Lemma unique_elem values v : v ∈ unique values ↔ v ∈ values.
Proof.
  unfold unique. rewrite foldl_unique_elem. split; [|by right].
  intros [Hv|?]; [|done]. by apply not_elem_of_nil in Hv.
Qed.

Lemma unique_NoDup values : NoDup (unique values).
Proof. apply foldl_unique_NoDup, NoDup_nil_2. Qed.

Lemma unique_length_zero values : ¬ (0 < length (unique values))%nat → values = [].
Proof.
  intros Hlen. destruct values as [|x values]; [done|].
  assert (x ∈ unique (x :: values)) as Hx
    by (apply unique_elem, list_elem_of_here).
  destruct (unique (x :: values)); [by apply not_elem_of_nil in Hx|].
  simpl in Hlen. lia.
Qed.

Lemma fmap_filter_nil {A B} (f : A → B) (P : A → Prop) `{∀ x, Decision (P x)}
    (l : list A) :
  f <$> filter P l = [] → Forall (λ x, ¬ P x) l.
Proof.
  intros Hnil. apply fmap_nil_inv in Hnil. apply Forall_forall. intros x Hx HP.
  assert (x ∈ filter P l) as Hin by (by apply list_elem_of_filter).
  rewrite Hnil in Hin. by apply not_elem_of_nil in Hin.
Qed.

Lemma filter_none {A} (P : A → Prop) `{∀ x, Decision (P x)} (l : list A) :
  Forall (λ x, ¬ P x) l → filter P l = [].
Proof.
  induction 1 as [|x l Hx Hl IH]; [done|].
  by rewrite filter_cons, decide_False.
Qed.

(** A row has passed both value checks. *)
Definition valid_row (p : Process) : Prop :=
  Potential p ∈ valid_potentials ∧ Communication p ∈ valid_communications.

(** The frame is accepted exactly when every trimmed value is valid, and
    the result is the frame with both columns trimmed. *)
Lemma load_data_accepts data out :
  load_data data = inr out ↔
  out = strip_communication <$> (strip_potential <$> data)
  ∧ Forall valid_row out.
Proof.
  unfold load_data. split.
  - destruct (decide (0 < length (unique (Potential <$> filter _ _)))%nat)
      as [|Hpot]; [done|].
    destruct (decide (0 < length (unique (Communication <$> filter _ _)))%nat)
      as [|Hcomm]; [done|].
    intros [= <-]. split; [done|].
    apply unique_length_zero, fmap_filter_nil in Hpot.
    apply unique_length_zero, fmap_filter_nil in Hcomm.
    rewrite Forall_fmap in Hcomm. rewrite Forall_fmap.
    rewrite Forall_forall in Hpot, Hcomm. apply Forall_forall.
    intros p Hp. split; simpl.
    + by apply dec_stable, Hpot.
    + by apply dec_stable, (Hcomm p Hp).
  - intros [-> Hvalid].
    rewrite Forall_fmap in Hvalid. rewrite Forall_forall in Hvalid.
    rewrite (filter_none (λ p, Potential p ∉ valid_potentials)).
    2: { apply Forall_forall. intros p Hp Hbad. by destruct (Hvalid p Hp). }
    simpl. rewrite (filter_none (λ p, Communication p ∉ valid_communications)).
    2: { apply Forall_fmap, Forall_forall. intros p Hp Hbad.
         by destruct (Hvalid p Hp). }
    done.
Qed.

(** X18: [load_data] accepts a frame exactly when, blanks trimmed, every
    potential is one of the four potentials and every communication level
    one of the three levels; the accepted frame is the given one with these
    two columns trimmed, names and vacancies as read (a vacancy of any sign
    passes).  Invalid potentials are reported before invalid communication
    levels, each distinct trimmed value once. *)
Theorem load_data_validates (data : list Process) :
  match load_data data with
  | inr out =>
      out = strip_communication <$> (strip_potential <$> data)
      ∧ Forall valid_row out
      ∧ Process_Name <$> out = Process_Name <$> data
      ∧ Vacancy <$> out = Vacancy <$> data
  | inl (InvalidPotentials values) =>
      values ≠ [] ∧ NoDup values
      ∧ ∀ v, v ∈ values ↔
             ((v ∉ valid_potentials) ∧ (∃ p, p ∈ data ∧ strip (Potential p) = v))
  | inl (InvalidCommunications values) =>
      Forall (λ p, strip (Potential p) ∈ valid_potentials) data
      ∧ values ≠ [] ∧ NoDup values
      ∧ ∀ v, v ∈ values ↔
             ((v ∉ valid_communications)
              ∧ (∃ p, p ∈ data ∧ strip (Communication p) = v))
  end.
Proof.
  destruct (load_data data) as [[values|values]|out] eqn:Hload.
  - unfold load_data in Hload.
    destruct (decide (0 < length (unique (Potential <$> filter _ _)))%nat)
      as [Hlen|]; [|by repeat case_decide].
    injection Hload as <-. split; [|split; [apply unique_NoDup|]].
    + intros Hnil. rewrite Hnil in Hlen. simpl in Hlen. lia.
    + intros v. rewrite unique_elem, list_elem_of_fmap. split.
      * intros (p & -> & [Hbad (p0 & -> & Hp0)%list_elem_of_fmap]%list_elem_of_filter).
        split; [done|]. by exists p0.
      * intros [Hbad (p0 & Hp0 & <-)]. exists (strip_potential p0).
        split; [done|]. apply list_elem_of_filter. split; [done|].
        by apply list_elem_of_fmap_2.
  - unfold load_data in Hload.
    destruct (decide (0 < length (unique (Potential <$> filter _ _)))%nat)
      as [|Hpot]; [done|].
    destruct (decide (0 < length (unique (Communication <$> filter _ _)))%nat)
      as [Hlen|]; [|done].
    injection Hload as <-.
    split; [|split; [|split; [apply unique_NoDup|]]].
    + apply unique_length_zero, fmap_filter_nil in Hpot.
      rewrite Forall_fmap in Hpot. eapply Forall_impl; [exact Hpot|].
      intros p Hp. simpl in Hp. by apply dec_stable.
    + intros Hnil. rewrite Hnil in Hlen. simpl in Hlen. lia.
    + intros v. rewrite unique_elem, list_elem_of_fmap. split.
      * intros (p & -> & [Hbad Hp]%list_elem_of_filter).
        apply list_elem_of_fmap in Hp as (p1 & -> & Hp1).
        apply list_elem_of_fmap in Hp1 as (p0 & -> & Hp0).
        split; [done|]. by exists p0.
      * intros [Hbad (p0 & Hp0 & <-)].
        exists (strip_communication (strip_potential p0)).
        split; [done|]. apply list_elem_of_filter. split; [done|].
        by apply list_elem_of_fmap_2, list_elem_of_fmap_2.
  - apply load_data_accepts in Hload as [-> Hvalid].
    split; [done|]. split; [done|].
    rewrite <- !list_fmap_compose. split; by apply list_fmap_ext.
Qed.

(** X19: validation is idempotent: a frame [load_data] has accepted is
    accepted again, unchanged. *)
Theorem load_data_idempotent (data out : list Process) :
  load_data data = inr out → load_data out = inr out.
Proof.
  intros [-> Hvalid]%load_data_accepts. apply load_data_accepts.
  split; [|done].
  rewrite <- !list_fmap_compose. apply list_fmap_ext. intros _ p _.
  unfold strip_communication, strip_potential. simpl.
  by rewrite !strip_idem.
Qed.

Definition uploaded : list Process :=
  [ mkProcess "A" " Sales" "Very Good " 3; mkProcess "B" "Support" "Good" (-1) ].

Example load_data_trims :
  load_data uploaded
  = inr [ mkProcess "A" "Sales" "Very Good" 3; mkProcess "B" "Support" "Good" (-1) ].
Proof. vm_compute. reflexivity. Qed.

Example load_data_reports_potentials_first :
  load_data [ mkProcess "A" "sales" "Fine" 3; mkProcess "B" "HR " "Good" 1;
              mkProcess "C" " sales" "Good" 1 ]
  = inl (InvalidPotentials ["sales"; "HR"]).
Proof. vm_compute. reflexivity. Qed.

Lemma load_data_idempotent_witness :
  load_data [ mkProcess "A" "Sales" "Very Good" 3;
              mkProcess "B" "Support" "Good" (-1) ]
  = inr [ mkProcess "A" "Sales" "Very Good" 3; mkProcess "B" "Support" "Good" (-1) ].
Proof. apply (load_data_idempotent uploaded). vm_compute. reflexivity. Defined.

End DataHandlerFacts.
